(** * dap-rs/scripts: TypeScript interface to Rust struct and enum generators

    A shallow embedding of the two generator scripts

      - [gen_enum_from_strings.py]: a union of string literals becomes a Rust
        enum with [FromStr] and [ToString] implementations;
      - [ts_interface_to_rust.py]: a TypeScript interface becomes a Rust
        struct, inline unions being delegated to the former.

    Python text is modelled by [string]; the development covers ASCII text
    (code points below 128), on which [str.upper], [str.lower], [str.isspace]
    and the regular-expression classes [\w] and [\s] are the functions below.
    Exceptions are an explicit [result]; the [re] module is a backtracking
    matcher with the priorities of Python's engine (greedy before lazy, left
    alternative first), restricted to the constructs the scripts use. *)

From Stdlib Require Import String Ascii List Bool Arith Lia.
Import ListNotations.
Open Scope list_scope.
Open Scope string_scope.

Set Implicit Arguments.

(** ** Exceptions *)

Inductive exn : Type :=
| AttributeError   (* [None.group(..)] *)
| IndexError.      (* [s[0]] on an empty string *)

Inductive result (A : Type) : Type :=
| Ok (a : A)
| Raise (e : exn).

Arguments Ok {A} a.
Arguments Raise {A} e.

Definition bind {A B : Type} (x : result A) (f : A -> result B) : result B :=
  match x with
  | Ok a => f a
  | Raise e => Raise e
  end.

Notation "x <- c1 ;; c2" := (bind c1 (fun x => c2))
  (at level 61, c1 at next level, right associativity).

(** A list comprehension whose body may raise: elements are evaluated from
    left to right and the first exception escapes. *)
Fixpoint mapM {A B : Type} (f : A -> result B) (l : list A) : result (list B) :=
  match l with
  | [] => Ok []
  | x :: t => y <- f x ;; ys <- mapM f t ;; Ok (y :: ys)
  end.

(** ** Python built-ins on ASCII text *)

Module Py.

Definition nl : string := String (ascii_of_nat 10) EmptyString.
Definition dq : string := String (ascii_of_nat 34) EmptyString.

Definition between (lo hi : nat) (c : ascii) : bool :=
  let n := nat_of_ascii c in Nat.leb lo n && Nat.leb n hi.

Definition isupper (c : ascii) : bool := between 65 90 c.
Definition islower (c : ascii) : bool := between 97 122 c.
Definition isdigit (c : ascii) : bool := between 48 57 c.

(** [str.isspace] on one character: TAB, LF, VT, FF, CR, FS, GS, RS, US
    and the space. *)
Definition isspace (c : ascii) : bool :=
  between 9 13 c || between 28 32 c.

Definition upper (c : ascii) : ascii :=
  if islower c then ascii_of_nat (nat_of_ascii c - 32) else c.

Definition lower (c : ascii) : ascii :=
  if isupper c then ascii_of_nat (nat_of_ascii c + 32) else c.

Fixpoint smap (f : ascii -> ascii) (s : string) : string :=
  match s with
  | EmptyString => EmptyString
  | String c s' => String (f c) (smap f s')
  end.

Definition str_lower : string -> string := smap lower.
Definition str_upper : string -> string := smap upper.

(** [str.capitalize]: first character upper-cased, the rest lower-cased. *)
Definition capitalize (s : string) : string :=
  match s with
  | EmptyString => EmptyString
  | String c s' => String (upper c) (str_lower s')
  end.

Fixpoint lstrip (s : string) : string :=
  match s with
  | EmptyString => EmptyString
  | String c s' => if isspace c then lstrip s' else s
  end.

Fixpoint rstrip (s : string) : string :=
  match s with
  | EmptyString => EmptyString
  | String c s' =>
      match rstrip s' with
      | EmptyString => if isspace c then EmptyString else String c EmptyString
      | r => String c r
      end
  end.

Definition strip (s : string) : string := rstrip (lstrip s).

(** [s.split(sep)] for a one-character separator. *)
Fixpoint split (sep : ascii) (s : string) : list string :=
  match s with
  | EmptyString => [EmptyString]
  | String c s' =>
      if Ascii.eqb c sep then EmptyString :: split sep s'
      else match split sep s' with
           | h :: t => String c h :: t
           | [] => [String c EmptyString]
           end
  end.

(** [str.join] with the empty separator. *)
Definition join (l : list string) : string := String.concat EmptyString l.

(** [x in l] for a list of strings. *)
Definition str_in (x : string) (l : list string) : bool :=
  existsb (String.eqb x) l.

(** [f"{x}"] for [x : str | None]. *)
Definition fmt_opt (x : option string) : string :=
  match x with
  | Some s => s
  | None => "None"
  end.

(** [l[i] = v]; every assignment of the scripts is at an index in range. *)
Fixpoint list_set (l : list string) (i : nat) (v : string) : list string :=
  match l, i with
  | [], _ => []
  | _ :: t, 0 => v :: t
  | x :: t, S i' => x :: list_set t i' v
  end.

End Py.

(** ** The [re] module *)

Module Re.

Inductive regex : Type :=
| Str (w : string)                 (* literal text *)
| Cls (p : ascii -> bool)          (* one character of a class *)
| Cat (r1 r2 : regex)
| Alt (r1 r2 : regex)              (* r1|r2 *)
| Opt (r : regex)                  (* r?  *)
| Star (p : ascii -> bool)         (* [p]*  *)
| Plus (p : ascii -> bool)         (* [p]+  *)
| PlusLazy (p : ascii -> bool)     (* [p]+? *)
| Grp (name : string) (r : regex)  (* (r) and (?P<name>r) *)
| Ahead (r : regex)                (* (?=r) *)
| NotAtStart.                      (* (?<!^) *)

(** Classes *)
Definition word (c : ascii) : bool :=
  Py.isupper c || Py.islower c || Py.isdigit c || Ascii.eqb c "_".
Definition space (c : ascii) : bool := Py.isspace c.
Definition dot (c : ascii) : bool := negb (Ascii.eqb c (ascii_of_nat 10)).
Definition chr (a : ascii) : regex := Cls (Ascii.eqb a).

(** A position in the subject together with the groups closed so far. *)
Record mstate : Type := MState {
  pos : nat;
  rest : string;
  groups : list (string * string)
}.

Definition advance (n : nat) (rest' : string) (st : mstate) : mstate :=
  MState (pos st + n) rest' (groups st).

Fixpoint strip_prefix (w s : string) : option string :=
  match w, s with
  | EmptyString, _ => Some s
  | String a w', String c s' =>
      if Ascii.eqb a c then strip_prefix w' s' else None
  | String _ _, EmptyString => None
  end.

Section Run.
Variable R : Type.

(** Greedy repetition of a class: the longest run first, then shorter
    ones on backtracking. *)
Fixpoint star_greedy (p : ascii -> bool) (k : mstate -> option R)
    (n : nat) (s : string) (g : list (string * string)) : option R :=
  match s with
  | String c s' =>
      if p c then
        match star_greedy p k (S n) s' g with
        | Some x => Some x
        | None => k (MState n s g)
        end
      else k (MState n s g)
  | EmptyString => k (MState n s g)
  end.

(** Lazy repetition: the continuation first, one more character on
    backtracking. *)
Fixpoint star_lazy (p : ascii -> bool) (k : mstate -> option R)
    (n : nat) (s : string) (g : list (string * string)) : option R :=
  match k (MState n s g) with
  | Some x => Some x
  | None =>
      match s with
      | String c s' => if p c then star_lazy p k (S n) s' g else None
      | EmptyString => None
      end
  end.
End Run.

Fixpoint run {R : Type} (r : regex) (st : mstate) (k : mstate -> option R)
    : option R :=
  match r with
  | Str w =>
      match strip_prefix w (rest st) with
      | Some s' => k (advance (String.length w) s' st)
      | None => None
      end
  | Cls p =>
      match rest st with
      | String c s' => if p c then k (advance 1 s' st) else None
      | EmptyString => None
      end
  | Cat r1 r2 => run r1 st (fun st1 => run r2 st1 k)
  | Alt r1 r2 =>
      match run r1 st k with
      | Some x => Some x
      | None => run r2 st k
      end
  | Opt r1 =>
      match run r1 st k with
      | Some x => Some x
      | None => k st
      end
  | Star p => star_greedy p k (pos st) (rest st) (groups st)
  | Plus p =>
      match rest st with
      | String c s' =>
          if p c then star_greedy p k (S (pos st)) s' (groups st) else None
      | EmptyString => None
      end
  | PlusLazy p =>
      match rest st with
      | String c s' =>
          if p c then star_lazy p k (S (pos st)) s' (groups st) else None
      | EmptyString => None
      end
  | Grp name r1 =>
      run r1 st (fun st1 =>
        k (MState (pos st1) (rest st1)
             ((name, substring 0 (pos st1 - pos st) (rest st)) :: groups st1)))
  | Ahead r1 =>
      match run r1 st (fun _ => Some tt) with
      | Some _ => k st
      | None => None
      end
  | NotAtStart => if Nat.eqb (pos st) 0 then None else k st
  end.

(** Match objects *)
Record rmatch : Type := RMatch {
  m_start : nat;
  m_end : nat;
  m_groups : list (string * string)
}.

Fixpoint lookup (name : string) (g : list (string * string)) : option string :=
  match g with
  | [] => None
  | (n, v) :: t => if String.eqb n name then Some v else lookup name t
  end.

(** [m.group(name)]; [None] when the group did not take part. *)
Definition group (name : string) (m : rmatch) : option string :=
  lookup name (m_groups m).

(** [m.group(name)] for a group that takes part in every match. *)
Definition group_str (name : string) (m : rmatch) : string :=
  match group name m with
  | Some v => v
  | None => EmptyString
  end.

(** One attempt at a fixed start.  [must_advance] refuses the empty match,
    as the engine does right after an empty match at the same place. *)
Definition try_at (r : regex) (must_advance : bool) (n : nat) (s : string)
    : option rmatch :=
  run r (MState n s [])
    (fun st =>
       if must_advance && Nat.eqb (pos st) n then None
       else Some (RMatch n (pos st) (groups st))).

(** [re.match]: anchored at the start of the subject. *)
Definition rmatch_at_start (r : regex) (s : string) : option rmatch :=
  try_at r false 0 s.

Fixpoint search_from (r : regex) (n : nat) (s : string) : option rmatch :=
  match try_at r false n s with
  | Some m => Some m
  | None =>
      match s with
      | String _ s' => search_from r (S n) s'
      | EmptyString => None
      end
  end.

(** [re.search]: the leftmost start that matches. *)
Definition search (r : regex) (s : string) : option rmatch :=
  search_from r 0 s.

(** [re.sub]: every non-overlapping match from left to right is replaced;
    an empty match is replaced too, and after it the engine looks for a
    non-empty match at the same place before it moves on.  [skip] counts
    the characters of the current match still to be dropped. *)
Fixpoint sub_loop (r : regex) (repl : rmatch -> string)
    (n : nat) (s : string) (skip : nat) : string :=
  match skip, s with
  | S skip', String _ s' => sub_loop r repl (S n) s' skip'
  | S _, EmptyString => EmptyString
  | 0, _ =>
      match try_at r false n s with
      | None =>
          match s with
          | String c s' => String c (sub_loop r repl (S n) s' 0)
          | EmptyString => EmptyString
          end
      | Some m =>
          repl m ++
          match m_end m - n with
          | S len' =>
              match s with
              | String _ s' => sub_loop r repl (S n) s' len'
              | EmptyString => EmptyString
              end
          | 0 =>
              match try_at r true n s with
              | Some m2 =>
                  repl m2 ++
                  match s with
                  | String _ s' => sub_loop r repl (S n) s' (m_end m2 - n - 1)
                  | EmptyString => EmptyString
                  end
              | None =>
                  match s with
                  | String c s' => String c (sub_loop r repl (S n) s' 0)
                  | EmptyString => EmptyString
                  end
              end
          end
      end
  end.

Definition sub (r : regex) (repl : rmatch -> string) (s : string) : string :=
  sub_loop r repl 0 s 0.

End Re.

(** ** gen_enum_from_strings.py *)

Import Py.

(** [r"'?(\w+)'?"] *)
Definition TOKEN : Re.regex :=
  Re.Cat (Re.Opt (Re.chr "'"))
    (Re.Cat (Re.Grp "1" (Re.Plus Re.word)) (Re.Opt (Re.chr "'"))).

Definition get_strings (line : string) : result (list string) :=
  mapM (fun item =>
          match Re.search TOKEN item with
          | Some m => Ok (Re.group_str "1" m)
          | None => Raise AttributeError
          end)
       (split "|" line).

Definition cap (s : string) : result string :=
  match s with
  | EmptyString => Raise IndexError
  | String c s' => Ok (String (upper c) s')
  end.

Definition str_to_variant (s : string) : result string :=
  let parts := split " " s in
  ws <- mapM cap parts ;; Ok (join ws).

(** The generated Rust, read back arm by arm.  Each [print] of the three
    loops of the generator emits one variant or one match arm; the text is
    [render_*] of it, and the meaning of the generated routines is given on
    the arms (section "Generated routines" below). *)

Inductive variant : Type :=
| Unit (name : string)     (* [Name,] *)
| Carry.                   (* [String(String),] *)

Inductive parse_arm : Type :=
| Lit (item : string) (v : string)   (* ["item" => Ok(E::V),] *)
| Other                              (* [other => Ok(E::String(other.to_string()))] *)
| Fail (enum_name : string).         (* [other => Err(StringToEnumParseError {..}),] *)

Inductive unparse_arm : Type :=
| Back (v : string) (item : string)  (* [E::V => "item",] *)
| Unwrap.                            (* [E::String(other) => other] *)

Definition variants_of (strings : list string) : result (list variant) :=
  mapM (fun s =>
          if negb (String.eqb s "string")
          then v <- str_to_variant s ;; Ok (Unit v)
          else Ok Carry)
       strings.

Definition render_variant (v : variant) : string :=
  match v with
  | Unit name => "  " ++ name ++ "," ++ nl
  | Carry => "  String(String)," ++ nl
  end.

Definition get_variants (strings : list string) : result string :=
  vs <- variants_of strings ;;
  Ok (strip (join (map render_variant vs))).

Definition ind : string := "      ".

Definition match_arms_of (strings : list string) (enum_name : string)
    : result (list parse_arm) :=
  arms <- mapM (fun item =>
                  if negb (String.eqb item "string")
                  then v <- str_to_variant item ;; Ok (Lit item v)
                  else Ok Other)
               strings ;;
  Ok (arms ++ (if negb (str_in "string" strings) then [Fail enum_name] else []))%list.

Definition render_parse_arm (enum_name : string) (a : parse_arm) : string :=
  match a with
  | Lit item v =>
      ind ++ dq ++ item ++ dq ++ " => Ok(" ++ enum_name ++ "::" ++ v ++ ")," ++ nl
  | Other =>
      ind ++ "other => Ok(" ++ enum_name ++ "::String(other.to_string()))" ++ nl
  | Fail name =>
      ind ++ "other => Err(DeserializationError::StringToEnumParseError {" ++ nl ++
      "        enum_name: " ++ dq ++ name ++ dq ++ ".to_string()," ++ nl ++
      "        value: other.to_string()," ++ nl ++
      "      })," ++ nl ++
      "        " ++ nl
  end.

Definition get_match_arms (strings : list string) (enum_name : string)
    : result string :=
  arms <- match_arms_of strings enum_name ;;
  Ok (strip (join (map (render_parse_arm enum_name) arms))).

Definition enum2str_arms_of (strings : list string) : result (list unparse_arm) :=
  mapM (fun item =>
          if negb (String.eqb item "string")
          then v <- str_to_variant item ;; Ok (Back v item)
          else Ok Unwrap)
       strings.

Definition render_unparse_arm (enum_name : string) (a : unparse_arm) : string :=
  match a with
  | Back v item =>
      ind ++ enum_name ++ "::" ++ v ++ " => " ++ dq ++ item ++ dq ++ "," ++ nl
  | Unwrap =>
      ind ++ enum_name ++ "::String(other) => other" ++ nl
  end.

Definition get_enum2str_match_arms (strings : list string) (enum_name : string)
    : result string :=
  arms <- enum2str_arms_of strings ;;
  Ok (strip (join (map (render_unparse_arm enum_name) arms))).

(** [tmpl.format(name=.., variants=.., match_arms=.., enum2str_match_arms=..)] *)
Definition tmpl (name variants match_arms enum2str_match_arms : string) : string :=
  nl ++
  "#[derive(Debug)]" ++ nl ++
  "pub enum " ++ name ++ " {" ++ nl ++
  "  " ++ variants ++ nl ++
  "}" ++ nl ++
  nl ++
  "impl FromStr for " ++ name ++ " {" ++ nl ++
  "  type Err = DeserializationError;" ++ nl ++
  nl ++
  "  fn from_str(s: &str) -> Result<Self, Self::Err> {" ++ nl ++
  "    match s {" ++ nl ++
  "      " ++ match_arms ++ nl ++
  "    }" ++ nl ++
  "  }" ++ nl ++
  "}" ++ nl ++
  nl ++
  "impl ToString for " ++ name ++ " {" ++ nl ++
  "  fn to_string(&self) -> String {" ++ nl ++
  "    match &self {" ++ nl ++
  "      " ++ enum2str_match_arms ++ nl ++
  "    }" ++ nl ++
  "    .to_string()" ++ nl ++
  "  }" ++ nl ++
  "}" ++ nl ++
  nl ++
  "fromstr_deser!{ " ++ name ++ " }" ++ nl ++
  "tostr_ser!{ " ++ name ++ " }" ++ nl.

Definition gen_enum_def (enum_name stringy_enum_line : string) : result string :=
  strings <- get_strings stringy_enum_line ;;
  variants <- get_variants strings ;;
  match_arms <- get_match_arms strings enum_name ;;
  enum2str_match_arms <- get_enum2str_match_arms strings enum_name ;;
  Ok (tmpl enum_name variants match_arms enum2str_match_arms).

(** *** Generated routines

    The generated [from_str] is a Rust [match] on the input: the arms are
    tried in the order printed and the first that matches is taken; a string
    pattern matches the equal string, [other] matches everything.  The
    generated [to_string] is a [match] on the value: a unit variant is matched
    by its name, [String(other)] by the carrying variant.  This is what the
    printed text means when it is a declaration that compiles; [rust_wf]
    below says when it is, and the round-trip and exhaustiveness statements
    assume it. *)

Inductive value : Type :=
| Closed (v : string)         (* [E::V] *)
| Open (payload : string).    (* [E::String(payload)] *)

Inductive parsed : Type :=
| Parsed (x : value)                        (* [Ok(x)] *)
| ParseError (enum_name value : string).    (* [Err(StringToEnumParseError {..})] *)

Fixpoint from_str (arms : list parse_arm) (s : string) : option parsed :=
  match arms with
  | [] => None
  | Lit item v :: t =>
      if String.eqb s item then Some (Parsed (Closed v)) else from_str t s
  | Other :: _ => Some (Parsed (Open s))
  | Fail n :: _ => Some (ParseError n s)
  end.

Fixpoint to_string (arms : list unparse_arm) (x : value) : option string :=
  match arms with
  | [] => None
  | Back v item :: t =>
      match x with
      | Closed v' => if String.eqb v' v then Some item else to_string t x
      | Open _ => to_string t x
      end
  | Unwrap :: t =>
      match x with
      | Open s => Some s
      | Closed _ => to_string t x
      end
  end.


(** ** ts_interface_to_rust.py *)

Fixpoint cat (l : list Re.regex) : Re.regex :=
  match l with
  | [] => Re.Str EmptyString
  | [r] => r
  | r :: t => Re.Cat r (cat t)
  end.

Module RE.

(** [(?P<var>\w+)(?P<opt>\?)?: (?P<type>\w+)(?P<arr>\[\])?,] *)
Definition FIELD : Re.regex :=
  cat [Re.Grp "var" (Re.Plus Re.word); Re.Opt (Re.Grp "opt" (Re.chr "?"));
       Re.Str ": "; Re.Grp "type" (Re.Plus Re.word);
       Re.Opt (Re.Grp "arr" (Re.Str "[]")); Re.chr ","].

(** [(?<!^)(?=[A-Z])] *)
Definition SNEK : Re.regex :=
  cat [Re.NotAtStart; Re.Ahead (Re.Cls isupper)].

(** [interface (?P<name>\w+)(.+?)? {] *)
Definition INTERFACE : Re.regex :=
  cat [Re.Str "interface "; Re.Grp "name" (Re.Plus Re.word);
       Re.Opt (Re.Grp "2" (Re.PlusLazy Re.dot)); Re.Str " {"].

(** The class [['\w |]] *)
Definition variants_chars (c : ascii) : bool :=
  Ascii.eqb c "'" || Re.word c || Ascii.eqb c " " || Ascii.eqb c "|".

(** [\s*(?P<var>\w+)(?P<opt>\?)?: (?=.*[|])(?P<variants>['\w |]+);] *)
Definition ENUM : Re.regex :=
  cat [Re.Star Re.space; Re.Grp "var" (Re.Plus Re.word);
       Re.Opt (Re.Grp "opt" (Re.chr "?")); Re.Str ": ";
       Re.Ahead (cat [Re.Star Re.dot; Re.chr "|"]);
       Re.Grp "variants" (Re.Plus variants_chars); Re.chr ";"].

(** [(event|command): .*] *)
Definition TYPE_TAG : Re.regex :=
  cat [Re.Grp "1" (Re.Alt (Re.Str "event") (Re.Str "command"));
       Re.Str ": "; Re.Star Re.dot].

End RE.

Definition RM_LINES_WITH : list Re.regex :=
  [Re.Str "  /**"; Re.Str "  */"; Re.Str "body: {"; Re.Str "};"; RE.TYPE_TAG].

(** The replacement table, in the insertion order of the dictionary. *)
Definition RPL : list (Re.regex * (Re.rmatch -> string)) :=
  [ (Re.Str "string", fun _ => "String");
    (Re.Str "boolean", fun _ => "bool");
    (Re.Str "number", fun _ => "i64");
    (cat [Re.Star Re.space; Re.Str "* "], fun _ => "  /// ");
    (Re.Str ";", fun _ => ",");
    (RE.INTERFACE, fun m => "pub struct " ++ Re.group_str "name" m ++ " {") ].

Definition dict_replace (in_str : string)
    (rpl_map : list (Re.regex * (Re.rmatch -> string))) : string :=
  fold_left (fun value pr => Re.sub (fst pr) (snd pr) value) rpl_map in_str.

Definition is_some {A : Type} (o : option A) : bool :=
  match o with Some _ => true | None => false end.

Definition should_remove (line : string) : bool :=
  if String.eqb (strip line) EmptyString then true
  else existsb (fun rm_word => is_some (Re.search rm_word line)) RM_LINES_WITH.

Definition this_is_snek (name : string) : string :=
  str_lower (Re.sub RE.SNEK (fun _ => "_") name).

Definition edit_field_line (line : string) : string :=
  match Re.search RE.FIELD line with
  | Some m =>
      let varname := this_is_snek (Re.group_str "var" m) in
      let typename := Re.group_str "type" m in
      let is_opt := is_some (Re.group "opt" m) in
      let is_arr := is_some (Re.group "arr" m) in
      let typename := if is_arr then "Vec<" ++ typename ++ ">" else typename in
      let typename := if is_opt then "Option<" ++ typename ++ ">" else typename in
      "  pub " ++ varname ++ ": " ++ typename ++ ","
  | None => line
  end.

(** A Python [dict] of strings: keys keep the place of their first
    insertion, a later assignment to a key replaces its value there. *)
Definition dict : Type := list (string * string).

Fixpoint dict_set (d : dict) (k v : string) : dict :=
  match d with
  | [] => [(k, v)]
  | (k', v') :: t =>
      if String.eqb k' k then (k', v) :: t else (k', v') :: dict_set t k v
  end.

Definition dict_get (d : dict) (k : string) : option string := Re.lookup k d.

Definition values (d : dict) : list string := map snd d.

(** The state of the loop of [rewrite_enums]; [lines] is the caller's list,
    assigned in place. *)
Record rw_state : Type := RwState {
  enums : dict;
  struct_name : option string;
  lines : list string
}.

(** The body of the loop, at index [idx] holding [line]. *)
Definition rewrite_step (st : rw_state) (idx : nat) (line : string)
    : result rw_state :=
  match Re.rmatch_at_start RE.INTERFACE line with
  | Some m => Ok (RwState (enums st) (Some (Re.group_str "name" m)) (lines st))
  | None =>
      match Re.rmatch_at_start RE.ENUM line with
      | Some m =>
          let varname := Re.group_str "var" m in
          let typename := fmt_opt (struct_name st) ++ capitalize varname in
          enum_def <- gen_enum_def typename (Re.group_str "variants" m) ;;
          let enums' := dict_set (enums st) typename enum_def in
          let is_opt := is_some (Re.group "opt" m) in
          let typename := if is_opt then "Option<" ++ typename ++ ">" else typename in
          Ok (RwState enums' (struct_name st)
                (list_set (lines st) idx ("  pub " ++ varname ++ ": " ++ typename ++ ";")))
      | None => Ok st
      end
  end.

(** [for idx, line in enumerate(lines)]: the iterator reads the list that
    the body assigns to; [n] bounds the number of iterations left. *)
Fixpoint rewrite_loop (n idx : nat) (st : rw_state) : result rw_state :=
  match n with
  | 0 => Ok st
  | S n' =>
      match nth_error (lines st) idx with
      | None => Ok st
      | Some line =>
          st' <- rewrite_step st idx line ;;
          rewrite_loop n' (S idx) st'
      end
  end.

(** Returns the dictionary together with the list as the loop left it. *)
Definition rewrite_enums (lines0 : list string) : result (dict * list string) :=
  st <- rewrite_loop (List.length lines0) 0 (RwState [] None lines0) ;;
  Ok (enums st, lines st).

(** The second loop of the driver: what it prints for the lines kept. *)
Definition body (lines0 : list string) : list string :=
  map (fun line => edit_field_line (dict_replace line RPL))
      (filter (fun line => negb (should_remove line)) lines0).

(** The driver on the lines of the input file; the result is the sequence
    of [print] calls. *)
Definition main (lines0 : list string) : result (list string) :=
  r <- rewrite_enums lines0 ;;
  let '(enums, lines1) := r in
  Ok (values enums ++ [EmptyString] ++ body lines1)%list.


(** ** Notions used in the statements *)

Fixpoint take_while (p : ascii -> bool) (s : string) : string :=
  match s with
  | EmptyString => EmptyString
  | String c s' => if p c then String c (take_while p s') else EmptyString
  end.

Fixpoint drop_while (p : ascii -> bool) (s : string) : string :=
  match s with
  | EmptyString => EmptyString
  | String c s' => if p c then drop_while p s' else s
  end.

Fixpoint all_chars (p : ascii -> bool) (s : string) : bool :=
  match s with
  | EmptyString => true
  | String c s' => p c && all_chars p s'
  end.

Fixpoint has_char (p : ascii -> bool) (s : string) : bool :=
  match s with
  | EmptyString => false
  | String c s' => p c || has_char p s'
  end.

(** The first maximal run of word characters of a segment. *)
Fixpoint first_word (s : string) : option string :=
  match s with
  | EmptyString => None
  | String c s' =>
      if Re.word c then Some (String c (take_while Re.word s'))
      else first_word s'
  end.

(** Every segment of the union expression holds a word character. *)
Definition wf_union (expr : string) : bool :=
  forallb (has_char Re.word) (split "|" expr).

(** [w] occurs somewhere in [s]. *)
Definition contains (w s : string) : Prop :=
  exists pre post, s = pre ++ w ++ post.

(** First character upper-cased, the rest as it is. *)
Definition cap_first (w : string) : string :=
  match w with
  | EmptyString => EmptyString
  | String c r => String (upper c) r
  end.

(** An underscore before every upper-case letter. *)
Fixpoint underscore_upper (s : string) : string :=
  match s with
  | EmptyString => EmptyString
  | String c s' =>
      if isupper c then String "_" (String c (underscore_upper s'))
      else String c (underscore_upper s')
  end.

(** An underscore before every upper-case letter but the first character. *)
Definition snake (name : string) : string :=
  match name with
  | EmptyString => EmptyString
  | String c s' => String c (underscore_upper s')
  end.

(** What the extractor makes of one line. *)
Inductive line_kind : Type :=
| Interface (name : string)
| UnionField (varname : string) (is_opt : bool) (expr : string)
| Plain.

Definition classify (line : string) : line_kind :=
  match Re.rmatch_at_start RE.INTERFACE line with
  | Some m => Interface (Re.group_str "name" m)
  | None =>
      match Re.rmatch_at_start RE.ENUM line with
      | Some m =>
          UnionField (Re.group_str "var" m) (is_some (Re.group "opt" m))
            (Re.group_str "variants" m)
      | None => Plain
      end
  end.

(** The name of the enum generated for a field, given the tracker. *)
Definition enum_name_of (sn : option string) (varname : string) : string :=
  fmt_opt sn ++ capitalize varname.

(** The line a union-typed field is replaced with. *)
Definition field_ref (varname : string) (is_opt : bool) (typename : string)
    : string :=
  "  pub " ++ varname ++ ": " ++
  (if is_opt then "Option<" ++ typename ++ ">" else typename) ++ ";".

(** The tracker after a run of lines. *)
Fixpoint enclosing (sn : option string) (ls : list string) : option string :=
  match ls with
  | [] => sn
  | l :: t =>
      enclosing (match classify l with Interface n => Some n | _ => sn end) t
  end.

(** The union-typed fields in line order: generated name and union
    expression. *)
Fixpoint discovered (sn : option string) (ls : list string)
    : list (string * string) :=
  match ls with
  | [] => []
  | l :: t =>
      match classify l with
      | Interface n => discovered (Some n) t
      | UnionField v _ e => (enum_name_of sn v, e) :: discovered sn t
      | Plain => discovered sn t
      end
  end.

(** The lines after the extractor. *)
Fixpoint rewritten (sn : option string) (ls : list string) : list string :=
  match ls with
  | [] => []
  | l :: t =>
      match classify l with
      | Interface n => l :: rewritten (Some n) t
      | UnionField v o _ => field_ref v o (enum_name_of sn v) :: rewritten sn t
      | Plain => l :: rewritten sn t
      end
  end.

(** The enum block of one discovered field, under its name. *)
Definition generate (p : string * string) : result (string * string) :=
  b <- gen_enum_def (fst p) (snd p) ;; Ok (fst p, b).

(** Successive assignments to a dictionary. *)
Definition dict_update (d : dict) (ps : list (string * string)) : dict :=
  fold_left (fun d p => dict_set d (fst p) (snd p)) ps d.

(** Every union expression of the file has a word in each segment. *)
Definition wf_unions (ls : list string) : Prop :=
  Forall (fun p => wf_union (snd p) = true) (discovered None ls).

(** A token: what [get_strings] keeps of a segment. *)
Definition is_token (t : string) : Prop :=
  t <> EmptyString /\ all_chars Re.word t = true.

(** How each string of the specification shows in the two [match]es. *)
Definition parse_arm_for (item : string) (a : parse_arm) : Prop :=
  (item = "string" /\ a = Other) \/
  (item <> "string" /\ exists v, str_to_variant item = Ok v /\ a = Lit item v).

Definition unparse_arm_for (item : string) (a : unparse_arm) : Prop :=
  (item = "string" /\ a = Unwrap) \/
  (item <> "string" /\ exists v, str_to_variant item = Ok v /\ a = Back v item).

(** A segment of a union expression: a literal in quotes, or a bare word
    such as the open marker. *)
Definition segment_text (seg : bool * string) : string :=
  if fst seg then "'" ++ snd seg ++ "'" else snd seg.

(** The union expression with the given segments. *)
Definition union_expr (segs : list (bool * string)) : string :=
  String.concat " | " (map segment_text segs).

(** The optional marker and the array marker of a field declaration. *)
Definition opt_mark (is_opt : bool) : string :=
  if is_opt then "?" else EmptyString.

Definition arr_mark (is_arr : bool) : string :=
  if is_arr then "[]" else EmptyString.

(** The type a field is given: array wrapping first, optional wrapping
    around it. *)
Definition wrap_type (is_opt is_arr : bool) (t : string) : string :=
  let t := if is_arr then "Vec<" ++ t ++ ">" else t in
  if is_opt then "Option<" ++ t ++ ">" else t.

(** *** The scope of the model

    The classes and case mappings above are Python's on ASCII text only.
    Statements whose truth depends on that carry the hypothesis that the
    text they read is ASCII. *)

Definition is_ascii (c : ascii) : bool := Nat.ltb (nat_of_ascii c) 128.

Definition ascii_text (s : string) : Prop := all_chars is_ascii s = true.

Definition ascii_lines (ls : list string) : Prop := Forall ascii_text ls.

(** *** Unions whose generated declaration is Rust

    The arms above have the meaning given by [from_str] and [to_string] when
    the printed declaration compiles: the enum name is an identifier that
    starts with an upper-case letter and is none of the names the template
    and the serde implementations behind its two macros use; the open marker, if listed, is the last token (its arms come
    without a comma); the closed tokens start with a letter, their variant
    names are pairwise distinct and none is [Self] or [Err] (the associated
    type of the [FromStr] implementation); and none is [String] when the
    carrying variant [String(String)] is declared as well. *)

Definition template_names : list string :=
  ["Self"; "String"; "Result"; "Ok"; "Err"; "FromStr"; "ToString";
   "DeserializationError"; "Debug";
   "Deserialize"; "Deserializer"; "Serialize"; "Serializer"].

Definition starts_with_upper (t : string) : bool :=
  match t with
  | String c _ => isupper c
  | EmptyString => false
  end.

Definition rust_enum_name (n : string) : Prop :=
  starts_with_upper n = true /\
  all_chars Re.word n = true /\
  ~ In n template_names.

Definition closed_tokens (strings : list string) : list string :=
  filter (fun s => negb (String.eqb s "string")) strings.

Fixpoint marker_last (strings : list string) : bool :=
  match strings with
  | [] => true
  | s :: t =>
      match t with
      | [] => true
      | _ :: _ => negb (String.eqb s "string") && marker_last t
      end
  end.

Definition starts_with_letter (t : string) : bool :=
  match t with
  | String c _ => isupper c || islower c
  | EmptyString => false
  end.

Definition rust_wf (enum_name : string) (strings : list string) : Prop :=
  rust_enum_name enum_name /\
  marker_last strings = true /\
  NoDup (map cap_first (closed_tokens strings)) /\
  Forall (fun t => starts_with_letter t = true /\
                   cap_first t <> "Self" /\ cap_first t <> "Err")
         (closed_tokens strings) /\
  (In "string" strings ->
   ~ In "String" (map cap_first (closed_tokens strings))).

(** ** Facts about the monad and about text *)

Lemma mapM_Forall2 (A B : Type) (f : A -> result B) (l : list A) (l' : list B) :
  mapM f l = Ok l' -> Forall2 (fun x y => f x = Ok y) l l'.
Proof.
  revert l'. induction l as [|x t IH]; simpl; intros l' H.
  - inversion H. constructor.
  - destruct (f x) as [y|e] eqn:Hx; simpl in H; [|discriminate].
    destruct (mapM f t) as [ys|e] eqn:Ht; simpl in H; [|discriminate].
    inversion H; subst. constructor; auto.
Qed.

Lemma mapM_total (A B : Type) (f : A -> result B) (l : list A) :
  (forall x, In x l -> exists y, f x = Ok y) -> exists l', mapM f l = Ok l'.
Proof.
  induction l as [|x t IH]; simpl; intros H.
  - eexists; reflexivity.
  - destruct (H x (or_introl eq_refl)) as [y Hy].
    destruct IH as [ys Hys]; [intros; apply H; auto|].
    exists (y :: ys). rewrite Hy, Hys. reflexivity.
Qed.

Lemma mapM_raise (A B : Type) (f : A -> result B) (e : exn) (l : list A) :
  (forall x, In x l -> (exists y, f x = Ok y) \/ f x = Raise e) ->
  (exists x, In x l /\ f x = Raise e) ->
  mapM f l = Raise e.
Proof.
  induction l as [|x t IH]; simpl; intros Hall [z [Hin Hz]].
  - contradiction.
  - destruct (Hall x (or_introl eq_refl)) as [[y Hy]|Hy]; rewrite Hy; simpl; auto.
    destruct Hin as [->|Hin]; [congruence|].
    rewrite IH; auto. exists z; auto.
Qed.

Lemma take_drop_while (p : ascii -> bool) (s : string) :
  take_while p s ++ drop_while p s = s.
Proof.
  induction s as [|c s IH]; simpl; auto.
  destruct (p c); simpl; congruence.
Qed.

Lemma take_while_all (p : ascii -> bool) (s : string) :
  all_chars p (take_while p s) = true.
Proof.
  induction s as [|c s IH]; simpl; auto.
  destruct (p c) eqn:E; simpl; auto. rewrite E; auto.
Qed.

Lemma substring_prefix (a b : string) :
  substring 0 (String.length a) (a ++ b) = a.
Proof.
  induction a as [|c a IH]; simpl.
  - destruct b; reflexivity.
  - rewrite IH. reflexivity.
Qed.

Lemma first_word_none (s : string) :
  first_word s = None <-> has_char Re.word s = false.
Proof.
  induction s as [|c s IH]; simpl; [tauto|].
  destruct (Re.word c); simpl; [split; discriminate | exact IH].
Qed.

Lemma first_word_shape (s w : string) :
  first_word s = Some w -> w <> EmptyString /\ all_chars Re.word w = true.
Proof.
  induction s as [|c s IH]; simpl; [discriminate|].
  destruct (Re.word c) eqn:E; auto.
  intros H; inversion H; subst. split; [discriminate|].
  simpl. rewrite E. apply take_while_all.
Qed.

Lemma strip_prefix_spec (w s s' : string) :
  Re.strip_prefix w s = Some s' <-> s = w ++ s'.
Proof.
  revert s. induction w as [|a w IH]; intros s; simpl.
  - split; intros H; [inversion H | subst]; reflexivity.
  - destruct s as [|c s]; [split; discriminate|].
    destruct (Ascii.eqb_spec a c) as [->|Hne].
    + rewrite IH. split; intros H; [subst | inversion H]; reflexivity.
    + split; [discriminate | intros H; inversion H; congruence].
Qed.

(** ** Facts about the matcher *)

Lemma star_greedy_total (R : Type) (p : ascii -> bool) (k : Re.mstate -> option R) :
  (forall st, k st <> None) ->
  forall s n g,
    Re.star_greedy p k n s g =
    k (Re.MState (n + String.length (take_while p s)) (drop_while p s) g).
Proof.
  intros Hk. induction s as [|c s IH]; intros n g; simpl.
  - rewrite Nat.add_0_r. reflexivity.
  - destruct (p c); simpl.
    + rewrite IH. rewrite <- plus_n_Sm. simpl.
      destruct (k _) eqn:E; [reflexivity | exfalso; eapply Hk; eauto].
    + rewrite Nat.add_0_r. reflexivity.
Qed.

#[local] Arguments Ascii.eqb : simpl never.
#[local] Arguments Nat.sub : simpl never.
#[local] Arguments substring : simpl never.

Lemma opt_total (R : Type) (r : Re.regex) (k : Re.mstate -> option R) :
  (forall st, k st <> None) -> forall st, Re.run (Re.Opt r) st k <> None.
Proof.
  intros Hk st. simpl. destruct (Re.run r st k); [discriminate | apply Hk].
Qed.

Lemma plus_word_token (n : nat) (g : list (string * string)) (c : ascii) (s' : string) (start : nat) (whole : string) :
  Re.word c = true ->
  whole = String c s' ->
  option_map (Re.group_str "1")
    (Re.star_greedy Re.word
       (fun st1 =>
          Re.run (Re.Opt (Re.chr "'"))
            (Re.MState (Re.pos st1) (Re.rest st1)
               (("1", substring 0 (Re.pos st1 - n) whole) :: Re.groups st1))
            (fun st => Some (Re.RMatch start (Re.pos st) (Re.groups st))))
       (S n) s' g)
  = Some (String c (take_while Re.word s')).
Proof.
  intros Hc ->.
  rewrite star_greedy_total.
  - cbn [Re.run Re.pos Re.rest Re.groups Re.chr].
    assert (E : substring 0 (S n + String.length (take_while Re.word s') - n)
                  (String c s') = String c (take_while Re.word s')).
    { replace (S n + String.length (take_while Re.word s') - n)
        with (String.length (String c (take_while Re.word s')))
        by (cbn [String.length]; lia).
      rewrite <- (take_drop_while Re.word s') at 2.
      change (String c (take_while Re.word s' ++ drop_while Re.word s'))
        with (String c (take_while Re.word s') ++ drop_while Re.word s').
      apply substring_prefix. }
    rewrite E.
    destruct (drop_while Re.word s') as [|d r]; [reflexivity|].
    destruct (Ascii.eqb "'" d); reflexivity.
  - intros st. apply opt_total. discriminate.
Qed.

Lemma quote_not_word : Re.word "'" = false.
Proof. reflexivity. Qed.

Lemma token_at (n : nat) (s : string) :
  option_map (Re.group_str "1") (Re.try_at TOKEN false n s) =
  match s with
  | String c s' =>
      if Re.word c then Some (String c (take_while Re.word s'))
      else if Ascii.eqb "'" c then
        match s' with
        | String d s'' =>
            if Re.word d then Some (String d (take_while Re.word s'')) else None
        | EmptyString => None
        end
      else None
  | EmptyString => None
  end.
Proof.
  unfold Re.try_at, TOKEN.
  cbn [Re.run Re.chr Re.pos Re.rest Re.groups Re.advance andb].
  destruct s as [|c s']; [reflexivity|].
  destruct (Ascii.eqb_spec "'" c) as [<-|Hq].
  - rewrite quote_not_word.
    destruct s' as [|d s'']; [reflexivity|].
    destruct (Re.word d) eqn:Hd; [|reflexivity].
    match goal with
    | |- option_map _ (match ?X with _ => _ end) = _ =>
        assert (H : option_map (Re.group_str "1") X
                    = Some (String d (take_while Re.word s'')))
    end.
    { exact (@plus_word_token (n + 1) [] d s'' n (String d s'') Hd eq_refl). }
    destruct (Re.star_greedy _ _ _ _ _); [exact H | discriminate H].
  - destruct (Re.word c) eqn:Hc; [|reflexivity].
    exact (@plus_word_token n [] c s' n (String c s') Hc eq_refl).
Qed.

Lemma token_search_from (s : string) (n : nat) :
  option_map (Re.group_str "1") (Re.search_from TOKEN n s) = first_word s.
Proof.
  revert n. induction s as [|c s' IH]; intros n.
  - reflexivity.
  - cbn [Re.search_from first_word].
    pose proof (token_at n (String c s')) as H.
    destruct (Re.try_at TOKEN false n (String c s')) as [m|].
    + cbn [option_map] in *. rewrite H.
      destruct (Re.word c); [reflexivity|].
      destruct (Ascii.eqb "'" c); [|discriminate].
      destruct s' as [|d s'']; [discriminate|].
      cbn [first_word]. destruct (Re.word d); [reflexivity | discriminate].
    + rewrite IH. cbn [option_map] in H.
      destruct (Re.word c); [discriminate | reflexivity].
Qed.

Lemma token_search (item : string) :
  option_map (Re.group_str "1") (Re.search TOKEN item) = first_word item.
Proof. apply token_search_from. Qed.

(** ** Facts about the enum generator *)

Lemma get_strings_item (item : string) :
  match Re.search TOKEN item with
  | Some m => Ok (Re.group_str "1" m)
  | None => Raise AttributeError
  end =
  match first_word item with
  | Some w => Ok w
  | None => Raise AttributeError
  end.
Proof.
  rewrite <- token_search. destruct (Re.search TOKEN item); reflexivity.
Qed.

Lemma get_strings_spec (line : string) :
  get_strings line =
  mapM (fun item => match first_word item with
                    | Some w => Ok w
                    | None => Raise AttributeError
                    end) (split "|" line).
Proof.
  unfold get_strings. induction (split "|" line) as [|x t IH]; [reflexivity|].
  cbn [mapM]. rewrite get_strings_item, IH. reflexivity.
Qed.

Lemma word_not_space (c : ascii) : Re.word c = true -> Ascii.eqb c " " = false.
Proof.
  intros H. destruct (Ascii.eqb_spec c " ") as [->|]; [discriminate H | reflexivity].
Qed.

Lemma split_no_sep (sep : ascii) (s : string) :
  all_chars (fun c => negb (Ascii.eqb c sep)) s = true -> split sep s = [s].
Proof.
  induction s as [|c s IH]; cbn [all_chars split]; [reflexivity|].
  intros H. apply andb_true_iff in H as [Hc Hs].
  apply negb_true_iff in Hc. rewrite Hc, IH by assumption. reflexivity.
Qed.

Lemma all_chars_impl (p q : ascii -> bool) (s : string) :
  (forall c, p c = true -> q c = true) ->
  all_chars p s = true -> all_chars q s = true.
Proof.
  intros Hpq. induction s as [|c s IH]; cbn [all_chars]; [reflexivity|].
  intros H. apply andb_true_iff in H as [Hc Hs].
  rewrite (Hpq _ Hc), IH by assumption. reflexivity.
Qed.

Lemma mapM_cap (l : list string) :
  Forall (fun w => w <> EmptyString) l -> mapM cap l = Ok (map cap_first l).
Proof.
  induction 1 as [|w l Hw _ IH]; cbn [mapM map]; [reflexivity|].
  destruct w as [|c r]; [congruence|]. cbn [cap cap_first bind].
  rewrite IH. reflexivity.
Qed.

Lemma mapM_cap_empty (l : list string) :
  In EmptyString l -> mapM cap l = Raise IndexError.
Proof.
  intros H. apply mapM_raise.
  - intros x _. destruct x; [right | left; eexists]; reflexivity.
  - exists EmptyString. split; [assumption | reflexivity].
Qed.

Lemma str_to_variant_words (s : string) :
  Forall (fun w => w <> EmptyString) (split " " s) ->
  str_to_variant s = Ok (join (map cap_first (split " " s))).
Proof.
  intros H. unfold str_to_variant. rewrite mapM_cap by assumption. reflexivity.
Qed.

Lemma str_to_variant_single (s : string) :
  s <> EmptyString ->
  all_chars (fun c => negb (Ascii.eqb c " ")) s = true ->
  str_to_variant s = Ok (cap_first s).
Proof.
  intros Hne Hsp. rewrite str_to_variant_words; rewrite split_no_sep by assumption.
  - cbn. reflexivity.
  - constructor; [assumption | constructor].
Qed.

Lemma str_to_variant_token (t : string) :
  t <> EmptyString -> all_chars Re.word t = true ->
  str_to_variant t = Ok (cap_first t).
Proof.
  intros Hne Hw. apply str_to_variant_single; [assumption|].
  eapply all_chars_impl; [|exact Hw].
  intros c Hc. rewrite (word_not_space _ Hc). reflexivity.
Qed.

Lemma get_strings_tokens (line : string) (strings : list string) :
  get_strings line = Ok strings -> Forall is_token strings.
Proof.
  rewrite get_strings_spec. intros H. apply mapM_Forall2 in H.
  induction H as [|item t l l' Hx _ IH]; constructor; [|exact IH].
  destruct (first_word item) as [w|] eqn:E; [|discriminate].
  inversion Hx; subst. eapply first_word_shape; eauto.
Qed.

Lemma get_strings_segments (line : string) (strings : list string) :
  get_strings line = Ok strings ->
  Forall2 (fun item t => first_word item = Some t) (split "|" line) strings.
Proof.
  rewrite get_strings_spec. intros H. apply mapM_Forall2 in H.
  induction H as [|item t l l' Hx _ IH]; constructor; [|exact IH].
  destruct (first_word item); [inversion Hx; reflexivity | discriminate].
Qed.

Lemma get_strings_total (line : string) :
  wf_union line = true -> exists strings, get_strings line = Ok strings.
Proof.
  unfold wf_union. rewrite get_strings_spec, forallb_forall. intros H.
  apply mapM_total. intros item Hin. specialize (H _ Hin).
  destruct (first_word item) as [w|] eqn:E; [eexists; reflexivity|].
  apply first_word_none in E. congruence.
Qed.

Lemma get_strings_raise (line : string) :
  wf_union line = false -> get_strings line = Raise AttributeError.
Proof.
  unfold wf_union. rewrite get_strings_spec. intros H.
  apply mapM_raise.
  - intros item _. destruct (first_word item); [left; eexists | right]; reflexivity.
  - assert (E : existsb (fun s => negb (has_char Re.word s)) (split "|" line) = true).
    { clear -H. induction (split "|" line) as [|x t IH]; [discriminate|].
      cbn [forallb existsb] in *. destruct (has_char Re.word x); cbn in *; auto. }
    apply existsb_exists in E as [item [Hin Hitem]].
    exists item. split; [assumption|].
    apply negb_true_iff, first_word_none in Hitem. rewrite Hitem. reflexivity.
Qed.

Lemma str_in_In (x : string) (l : list string) :
  str_in x l = true <-> In x l.
Proof.
  unfold str_in. rewrite existsb_exists. split.
  - intros [y [Hin Hy]]. apply String.eqb_eq in Hy. subst. assumption.
  - intros H. exists x. split; [assumption | apply String.eqb_refl].
Qed.

Lemma parse_arms_shape (strings : list string) (arms : list parse_arm) :
  mapM (fun item =>
          if negb (String.eqb item "string")
          then v <- str_to_variant item ;; Ok (Lit item v)
          else Ok Other) strings = Ok arms ->
  Forall2 parse_arm_for strings arms.
Proof.
  intros H. apply mapM_Forall2 in H.
  induction H as [|item a l l' Hx _ IH]; constructor; [|exact IH].
  destruct (String.eqb_spec item "string") as [->|Hne]; cbn [negb] in Hx.
  - left. inversion Hx. auto.
  - right. split; [assumption|].
    destruct (str_to_variant item) as [v|]; [|discriminate].
    inversion Hx. eauto.
Qed.

Lemma unparse_arms_shape (strings : list string) (arms : list unparse_arm) :
  enum2str_arms_of strings = Ok arms ->
  Forall2 unparse_arm_for strings arms.
Proof.
  intros H. apply mapM_Forall2 in H.
  induction H as [|item a l l' Hx _ IH]; constructor; [|exact IH].
  destruct (String.eqb_spec item "string") as [->|Hne]; cbn [negb] in Hx.
  - left. inversion Hx. auto.
  - right. split; [assumption|].
    destruct (str_to_variant item) as [v|]; [|discriminate].
    inversion Hx. eauto.
Qed.

Lemma arms_total (strings : list string) (enum_name : string) :
  Forall is_token strings ->
  exists ps us,
    match_arms_of strings enum_name = Ok ps /\
    enum2str_arms_of strings = Ok us.
Proof.
  intros Htok. unfold match_arms_of, enum2str_arms_of.
  assert (Hv : forall x, In x strings -> exists v, str_to_variant x = Ok v).
  { intros x Hin. rewrite Forall_forall in Htok. destruct (Htok _ Hin).
    eexists. apply str_to_variant_token; assumption. }
  destruct (mapM_total (fun item =>
              if negb (String.eqb item "string")
              then v <- str_to_variant item ;; Ok (Lit item v)
              else Ok Other) strings) as [ps Hps].
  { intros x Hin. destruct (Hv _ Hin) as [v E]. rewrite E.
    destruct (negb _); eexists; reflexivity. }
  destruct (mapM_total (fun item =>
              if negb (String.eqb item "string")
              then v <- str_to_variant item ;; Ok (Back v item)
              else Ok Unwrap) strings) as [us Hus].
  { intros x Hin. destruct (Hv _ Hin) as [v E]. rewrite E.
    destruct (negb _); eexists; reflexivity. }
  rewrite Hps, Hus. cbn [bind]. eauto.
Qed.

Section Routines.

Variables (strings : list string) (ps : list parse_arm) (us : list unparse_arm).
Variable tl : list parse_arm.

Lemma from_str_listed (lit : string) :
  Forall2 parse_arm_for strings ps ->
  In lit strings -> lit <> "string" ->
  (exists v, str_to_variant lit = Ok v /\
             from_str (ps ++ tl) lit = Some (Parsed (Closed v))) \/
  (In "string" strings /\ from_str (ps ++ tl) lit = Some (Parsed (Open lit))).
Proof.
  intros H. induction H as [|item a l l' Hx _ IH]; intros Hin Hne.
  - contradiction.
  - destruct Hx as [[-> ->]|[Hitem [v [Hv ->]]]]; cbn [from_str app].
    + right. split; [left|]; reflexivity.
    + destruct (String.eqb_spec lit item) as [->|Hd].
      * left. eauto.
      * destruct Hin as [->|Hin]; [congruence|].
        destruct (IH Hin Hne) as [?|[? ?]]; [left | right; split; [right|]]; auto.
Qed.

Lemma from_str_unlisted_open (s : string) :
  Forall2 parse_arm_for strings ps ->
  (forall item, In item strings -> item <> "string" -> item <> s) ->
  In "string" strings ->
  from_str (ps ++ tl) s = Some (Parsed (Open s)).
Proof.
  intros H. induction H as [|item a l l' Hx _ IH]; intros Hnin Hin.
  - contradiction.
  - destruct Hx as [[-> ->]|[Hitem [v [Hv ->]]]]; cbn [from_str app].
    + reflexivity.
    + destruct (String.eqb_spec s item) as [->|Hd].
      * exfalso. apply (Hnin item); [left; reflexivity | assumption | reflexivity].
      * destruct Hin as [->|Hin]; [congruence|].
        apply IH; [|assumption]. intros it Hit. apply Hnin. right; assumption.
Qed.

Lemma from_str_unlisted_closed (s : string) :
  Forall2 parse_arm_for strings ps ->
  ~ In s strings -> ~ In "string" strings ->
  from_str (ps ++ tl) s = from_str tl s.
Proof.
  intros H. induction H as [|item a l l' Hx _ IH]; intros Hnin Hns.
  - reflexivity.
  - destruct Hx as [[-> ->]|[Hitem [v [Hv ->]]]]; cbn [from_str app].
    + exfalso. apply Hns. left; reflexivity.
    + destruct (String.eqb_spec s item) as [->|Hd].
      * exfalso. apply Hnin. left; reflexivity.
      * apply IH; intros Hs; [apply Hnin | apply Hns]; right; assumption.
Qed.



Lemma to_string_open (s : string) :
  Forall2 unparse_arm_for strings us ->
  In "string" strings -> to_string us (Open s) = Some s.
Proof.
  intros H. induction H as [|item a l l' Hx _ IH]; intros Hin.
  - contradiction.
  - destruct Hx as [[-> ->]|[Hitem [v' [Hv' ->]]]]; cbn [to_string].
    + reflexivity.
    + destruct Hin as [->|Hin]; [congruence|]. apply IH; assumption.
Qed.

End Routines.

(** ** Facts about the line filter *)

Lemma search_from_iff (r : Re.regex) (P : string -> Prop) :
  (forall n s, is_some (Re.try_at r false n s) = true <-> P s) ->
  forall s n,
    is_some (Re.search_from r n s) = true <->
    exists pre post, s = pre ++ post /\ P post.
Proof.
  intros HP. induction s as [|c s IH]; intros n; cbn [Re.search_from].
  - specialize (HP n EmptyString).
    destruct (Re.try_at r false n EmptyString); cbn [is_some] in *.
    + split; [intros _|reflexivity]. exists EmptyString, EmptyString.
      split; [reflexivity | apply HP; reflexivity].
    + split; [discriminate|]. intros [pre [post [E Hp]]].
      destruct pre; [|discriminate]. cbn in E. subst post. apply HP, Hp.
  - pose proof (HP n (String c s)) as H0.
    destruct (Re.try_at r false n (String c s)); cbn [is_some] in *.
    + split; [intros _|reflexivity]. exists EmptyString, (String c s).
      split; [reflexivity | apply H0; reflexivity].
    + rewrite IH. split.
      * intros [pre [post [E Hp]]]. exists (String c pre), post.
        split; [cbn; congruence | assumption].
      * intros [pre [post [E Hp]]]. destruct pre as [|d pre].
        -- cbn in E. subst post. apply H0 in Hp. discriminate.
        -- cbn in E. inversion E; subst. eauto.
Qed.

Lemma try_at_str (w : string) (n : nat) (s : string) :
  is_some (Re.try_at (Re.Str w) false n s) = true <-> exists s', s = w ++ s'.
Proof.
  unfold Re.try_at. cbn [Re.run Re.rest andb].
  destruct (Re.strip_prefix w s) as [s'|] eqn:E; cbn [is_some].
  - apply strip_prefix_spec in E. split; eauto.
  - split; [discriminate|]. intros [s' Hs]. apply strip_prefix_spec in Hs. congruence.
Qed.

Lemma search_str (w s : string) :
  is_some (Re.search (Re.Str w) s) = true <-> contains w s.
Proof.
  unfold Re.search, contains.
  rewrite (search_from_iff (Re.Str w) (fun s => exists s', s = w ++ s')).
  - split; intros [pre [post H]].
    + destruct H as [-> [s' ->]]. eauto.
    + exists pre, (w ++ post). eauto.
  - intros n t. apply try_at_str.
Qed.

Lemma strip_prefix_app (a b s : string) :
  Re.strip_prefix (a ++ b) s =
  match Re.strip_prefix a s with
  | Some s' => Re.strip_prefix b s'
  | None => None
  end.
Proof.
  revert s. induction a as [|c a IH]; intros s; cbn; [reflexivity|].
  destruct s as [|d s]; [reflexivity|].
  destruct (Ascii.eqb c d); [apply IH | reflexivity].
Qed.

Lemma try_at_type_tag (n : nat) (s : string) :
  is_some (Re.try_at RE.TYPE_TAG false n s) = true <->
  (exists s', s = "event: " ++ s') \/ (exists s', s = "command: " ++ s').
Proof.
  rewrite <- !try_at_str with (n := n).
  unfold Re.try_at, RE.TYPE_TAG.
  cbn [cat Re.run Re.rest Re.pos Re.groups Re.advance andb].
  change "event: " with ("event" ++ ": "). change "command: " with ("command" ++ ": ").
  rewrite !strip_prefix_app.
  destruct (Re.strip_prefix "event" s) as [s1|];
    destruct (Re.strip_prefix "command" s) as [s2|];
    repeat match goal with
    | |- context [Re.strip_prefix ": " ?x] => destruct (Re.strip_prefix ": " x)
    end;
    rewrite ?star_greedy_total by discriminate; cbn [is_some];
    intuition discriminate.
Qed.

Lemma search_type_tag (s : string) :
  is_some (Re.search RE.TYPE_TAG s) = true <->
  contains "event: " s \/ contains "command: " s.
Proof.
  unfold Re.search, contains.
  rewrite (search_from_iff RE.TYPE_TAG _ (fun n t => try_at_type_tag n t)).
  split.
  - intros [pre [post [-> [[s' ->]|[s' ->]]]]]; [left | right]; eauto.
  - intros [[pre [post ->]]|[pre [post ->]]].
    + exists pre, ("event: " ++ post). eauto.
    + exists pre, ("command: " ++ post). eauto.
Qed.

Lemma should_remove_spec (line : string) :
  should_remove line = true <->
  strip line = EmptyString \/
  contains "  /**" line \/ contains "  */" line \/
  contains "body: {" line \/ contains "};" line \/
  contains "event: " line \/ contains "command: " line.
Proof.
  unfold should_remove.
  destruct (String.eqb_spec (strip line) EmptyString) as [E|E].
  - split; auto.
  - cbn [existsb RM_LINES_WITH]. rewrite !orb_true_iff, !search_str, search_type_tag.
    intuition discriminate.
Qed.

(** ** Facts about the snake-case conversion *)

Lemma snek_try (n : nat) (s : string) :
  Re.try_at RE.SNEK false n s =
  if Nat.eqb n 0 then None
  else match s with
       | String c _ => if isupper c then Some (Re.RMatch n n []) else None
       | EmptyString => None
       end.
Proof.
  unfold Re.try_at, RE.SNEK. cbn [cat Re.run Re.pos Re.rest Re.groups andb].
  destruct (Nat.eqb n 0); [reflexivity|].
  destruct s as [|c s]; [reflexivity|]. destruct (isupper c); reflexivity.
Qed.

Lemma snek_try_advance (n : nat) (s : string) :
  Re.try_at RE.SNEK true n s = None.
Proof.
  unfold Re.try_at, RE.SNEK. cbn [cat Re.run Re.pos Re.rest Re.groups andb].
  destruct (Nat.eqb n 0); [reflexivity|].
  destruct s as [|c s]; [reflexivity|].
  destruct (isupper c); [|reflexivity]. rewrite Nat.eqb_refl. reflexivity.
Qed.

Lemma sub_snek_inner (s : string) (n : nat) :
  Re.sub_loop RE.SNEK (fun _ => "_") (S n) s 0 = underscore_upper s.
Proof.
  revert n. induction s as [|c s IH]; intros n.
  - cbn [Re.sub_loop]. rewrite snek_try. reflexivity.
  - cbn [Re.sub_loop underscore_upper]. rewrite snek_try, snek_try_advance.
    cbn [Nat.eqb]. destruct (isupper c).
    + cbn [Re.m_end]. rewrite Nat.sub_diag, IH. reflexivity.
    + rewrite IH. reflexivity.
Qed.

Lemma sub_snek (name : string) :
  Re.sub RE.SNEK (fun _ => "_") name = snake name.
Proof.
  unfold Re.sub. destruct name as [|c s]; cbn [Re.sub_loop snake];
    rewrite snek_try; cbn [Nat.eqb]; [reflexivity|].
  rewrite sub_snek_inner. reflexivity.
Qed.

Lemma this_is_snek_spec (name : string) :
  this_is_snek name = str_lower (snake name).
Proof. unfold this_is_snek. rewrite sub_snek. reflexivity. Qed.

Lemma underscore_upper_id (s : string) :
  has_char isupper s = false -> underscore_upper s = s.
Proof.
  induction s as [|c s IH]; cbn [has_char underscore_upper]; [reflexivity|].
  intros H. apply orb_false_iff in H as [Hc Hs]. rewrite Hc, IH by assumption.
  reflexivity.
Qed.

Lemma str_lower_id (s : string) :
  has_char isupper s = false -> str_lower s = s.
Proof.
  unfold str_lower.
  induction s as [|c s IH]; cbn [has_char smap]; [reflexivity|].
  intros H. apply orb_false_iff in H as [Hc Hs]. rewrite IH by assumption.
  unfold lower. rewrite Hc. reflexivity.
Qed.

Lemma lower_not_upper (c : ascii) : isupper (lower c) = false.
Proof.
  destruct c as [[] [] [] [] [] [] [] []]; reflexivity.
Qed.

Lemma str_lower_no_upper (s : string) :
  has_char isupper (str_lower s) = false.
Proof.
  unfold str_lower. induction s as [|c s IH]; cbn [smap has_char]; [reflexivity|].
  rewrite lower_not_upper, IH. reflexivity.
Qed.

(** ** Facts about the extractor *)

Lemma variants_total (strings : list string) :
  Forall is_token strings -> exists vs, get_variants strings = Ok vs.
Proof.
  intros Htok. unfold get_variants, variants_of.
  destruct (mapM_total (fun s =>
              if negb (String.eqb s "string")
              then v <- str_to_variant s ;; Ok (Unit v)
              else Ok Carry) strings) as [vs Hvs].
  { intros x Hin. rewrite Forall_forall in Htok. destruct (Htok _ Hin).
    rewrite str_to_variant_token by assumption.
    destruct (negb _); eexists; reflexivity. }
  rewrite Hvs. cbn [bind]. eauto.
Qed.

Lemma gen_enum_def_total (enum_name expr : string) :
  wf_union expr = true -> exists b, gen_enum_def enum_name expr = Ok b.
Proof.
  intros H. unfold gen_enum_def.
  destruct (get_strings_total _ H) as [strings Hs]. rewrite Hs. cbn [bind].
  pose proof (get_strings_tokens _ Hs) as Htok.
  destruct (variants_total Htok) as [vs Hvs]. rewrite Hvs. cbn [bind].
  destruct (arms_total enum_name Htok) as [ps [us [Hps Hus]]].
  unfold get_match_arms, get_enum2str_match_arms. rewrite Hps, Hus.
  cbn [bind]. eauto.
Qed.

Lemma gen_enum_def_raise (enum_name expr : string) :
  wf_union expr = false -> gen_enum_def enum_name expr = Raise AttributeError.
Proof.
  intros H. unfold gen_enum_def. rewrite (get_strings_raise _ H). reflexivity.
Qed.

Lemma rewrite_step_classify (st : rw_state) (idx : nat) (line : string) :
  rewrite_step st idx line =
  match classify line with
  | Interface n => Ok (RwState (enums st) (Some n) (lines st))
  | UnionField v o e =>
      p <- generate (enum_name_of (struct_name st) v, e) ;;
      Ok (RwState (dict_set (enums st) (fst p) (snd p)) (struct_name st)
            (list_set (lines st) idx
               (field_ref v o (enum_name_of (struct_name st) v))))
  | Plain => Ok st
  end.
Proof.
  unfold rewrite_step, classify, generate, enum_name_of, field_ref.
  destruct (Re.rmatch_at_start RE.INTERFACE line); [reflexivity|].
  destruct (Re.rmatch_at_start RE.ENUM line); [|reflexivity].
  cbn [fst snd]. destruct (gen_enum_def _ _); reflexivity.
Qed.

Section Extractor.

#[local] Open Scope list_scope.

Lemma nth_error_middle (done todo : list string) (x : string) :
  nth_error (done ++ x :: todo) (List.length done) = Some x.
Proof. induction done; cbn; auto. Qed.

Lemma list_set_middle (done todo : list string) (x v : string) :
  list_set (done ++ x :: todo) (List.length done) v = done ++ v :: todo.
Proof. induction done; cbn; congruence. Qed.

Lemma rewrite_loop_shift (done t : list string) (x : string) (en : dict)
    (sn : option string) :
  rewrite_loop (List.length t) (S (List.length done))
    (RwState en sn (done ++ x :: t)) =
  rewrite_loop (List.length t) (List.length (done ++ [x]))
    (RwState en sn ((done ++ [x]) ++ t)).
Proof.
  rewrite <- app_assoc, length_app. cbn [List.length app].
  rewrite Nat.add_1_r. reflexivity.
Qed.

Lemma rewrite_loop_spec (todo : list string) :
  forall (done : list string) (en : dict) (sn : option string),
    rewrite_loop (List.length todo) (List.length done)
      (RwState en sn (done ++ todo)) =
    (gens <- mapM generate (discovered sn todo) ;;
     Ok (RwState (dict_update en gens) (enclosing sn todo)
           (done ++ rewritten sn todo))).
Proof.
  induction todo as [|line t IH]; intros done en sn.
  - reflexivity.
  - cbn [List.length rewrite_loop discovered enclosing rewritten lines].
    rewrite nth_error_middle, rewrite_step_classify.
    cbn [enums struct_name lines].
    destruct (classify line) as [n|v o e|]; cbn [bind].
    + rewrite rewrite_loop_shift, IH, <- app_assoc. reflexivity.
    + cbn [mapM].
      destruct (generate (enum_name_of sn v, e)) as [p|err]; [|reflexivity].
      cbn [bind]. rewrite list_set_middle, rewrite_loop_shift, IH, <- app_assoc.
      destruct (mapM generate (discovered sn t)); reflexivity.
    + rewrite rewrite_loop_shift, IH, <- app_assoc. reflexivity.
Qed.

Lemma rewrite_enums_spec (ls : list string) :
  rewrite_enums ls =
  (gens <- mapM generate (discovered None ls) ;;
   Ok (dict_update [] gens, rewritten None ls)).
Proof.
  unfold rewrite_enums.
  pose proof (rewrite_loop_spec ls [] [] None) as H.
  cbn [app List.length] in H. rewrite H.
  destruct (mapM generate (discovered None ls)); reflexivity.
Qed.

Lemma generate_total (ps : list (string * string)) :
  Forall (fun p => wf_union (snd p) = true) ps ->
  exists gens, mapM generate ps = Ok gens.
Proof.
  intros H. apply mapM_total. intros p Hin. rewrite Forall_forall in H.
  destruct (@gen_enum_def_total (fst p) (snd p) (H _ Hin)) as [b Hb].
  unfold generate. rewrite Hb. eexists; reflexivity.
Qed.

Lemma generate_shape (ps gens : list (string * string)) :
  mapM generate ps = Ok gens ->
  map fst gens = map fst ps /\
  Forall2 (fun p g => gen_enum_def (fst p) (snd p) = Ok (snd g)) ps gens.
Proof.
  intros H. apply mapM_Forall2 in H.
  induction H as [|p g l l' Hx _ [IH1 IH2]]; [split; constructor|].
  unfold generate in Hx.
  destruct (gen_enum_def (fst p) (snd p)) as [b|] eqn:E; [|discriminate].
  inversion Hx; subst. cbn [map fst snd]. split; [congruence|].
  constructor; assumption.
Qed.

Lemma dict_get_set (d : dict) (k v k' : string) :
  dict_get (dict_set d k v) k' =
  if String.eqb k k' then Some v else dict_get d k'.
Proof.
  unfold dict_get. induction d as [|[a b] d IH]; cbn [dict_set Re.lookup].
  - reflexivity.
  - destruct (String.eqb_spec a k) as [->|Hak]; cbn [Re.lookup].
    + destruct (String.eqb k k'); reflexivity.
    + rewrite IH. destruct (String.eqb_spec a k') as [->|Hak']; [|reflexivity].
      destruct (String.eqb_spec k k'); [congruence | reflexivity].
Qed.

Lemma dict_update_has (ps : list (string * string)) :
  forall (d : dict) (k : string),
    In k (map fst ps) \/ is_some (dict_get d k) = true ->
    is_some (dict_get (dict_update d ps) k) = true.
Proof.
  induction ps as [|[a b] ps IH]; intros d k H; cbn [dict_update fold_left].
  - destruct H as [[]|H]; exact H.
  - apply IH. cbn [map fst In snd] in *. rewrite dict_get_set.
    destruct (String.eqb_spec a k) as [->|Hne]; [right; reflexivity|].
    destruct H as [[H|H]|H]; [congruence | left | right]; assumption.
Qed.

Lemma dict_set_fresh (d : dict) (k v : string) :
  ~ In k (map fst d) -> dict_set d k v = d ++ [(k, v)].
Proof.
  induction d as [|[a b] d IH]; cbn [dict_set map fst In app]; intros H.
  - reflexivity.
  - destruct (String.eqb_spec a k) as [->|Hne]; [tauto|].
    rewrite IH by tauto. reflexivity.
Qed.

Lemma dict_update_nodup (ps : list (string * string)) :
  forall d : dict, NoDup (map fst (d ++ ps)) -> dict_update d ps = d ++ ps.
Proof.
  induction ps as [|[a b] ps IH]; intros d H; cbn [dict_update fold_left fst snd].
  - rewrite app_nil_r. reflexivity.
  - change (fold_left _ ps ?x) with (dict_update x ps).
    assert (Hfresh : ~ In a (map fst d)).
    { rewrite map_app in H. cbn [map fst] in H.
      apply NoDup_remove_2 in H. intros Hin. apply H.
      apply in_or_app. left; assumption. }
    rewrite dict_set_fresh by assumption.
    rewrite IH; rewrite <- app_assoc; [reflexivity | exact H].
Qed.

Lemma discovered_app (pre post : list string) :
  forall sn, discovered sn (pre ++ post) =
             discovered sn pre ++ discovered (enclosing sn pre) post.
Proof.
  induction pre as [|l pre IH]; intros sn; cbn [app discovered enclosing].
  - reflexivity.
  - destruct (classify l); rewrite IH; reflexivity.
Qed.

Lemma rewritten_app (pre post : list string) :
  forall sn, rewritten sn (pre ++ post) =
             rewritten sn pre ++ rewritten (enclosing sn pre) post.
Proof.
  induction pre as [|l pre IH]; intros sn; cbn [app rewritten enclosing].
  - reflexivity.
  - destruct (classify l); rewrite IH; reflexivity.
Qed.

Lemma rewritten_length (ls : list string) :
  forall sn, List.length (rewritten sn ls) = List.length ls.
Proof.
  induction ls as [|l ls IH]; intros sn; cbn [rewritten List.length].
  - reflexivity.
  - destruct (classify l); cbn [List.length]; rewrite IH; reflexivity.
Qed.


Lemma classify_union (line : string) (m : Re.rmatch) :
  Re.rmatch_at_start RE.INTERFACE line = None ->
  Re.rmatch_at_start RE.ENUM line = Some m ->
  classify line =
  UnionField (Re.group_str "var" m) (is_some (Re.group "opt" m))
    (Re.group_str "variants" m).
Proof. intros H1 H2. unfold classify. rewrite H1, H2. reflexivity. Qed.

(** The extractor at a union-typed field that follows the lines [pre]. *)
Lemma rewrite_enums_at_field (pre post : list string) (line v e : string)
    (o : bool) :
  classify line = UnionField v o e ->
  wf_unions (pre ++ line :: post) ->
  exists en ls',
    rewrite_enums (pre ++ line :: post) = Ok (en, ls') /\
    is_some (dict_get en (enum_name_of (enclosing None pre) v)) = true /\
    nth_error ls' (List.length pre) =
    Some (field_ref v o (enum_name_of (enclosing None pre) v)).
Proof.
  intros Hc Hwf. rewrite rewrite_enums_spec.
  destruct (generate_total Hwf) as [gens Hg]. rewrite Hg. cbn [bind].
  do 2 eexists. split; [reflexivity|]. split.
  - apply dict_update_has. left.
    destruct (generate_shape _ Hg) as [-> _].
    rewrite discovered_app, map_app. apply in_or_app. right.
    cbn [discovered]. rewrite Hc. left. reflexivity.
  - rewrite rewritten_app. cbn [rewritten]. rewrite Hc.
    rewrite <- (rewritten_length pre None). apply nth_error_middle.
Qed.

End Extractor.

(** ** The enum generator: generated parse and unparse routines *)









(** C7 (counterexample).  The middle segment of ['a' | | 'b'] holds no word:
    the generator raises instead of skipping it. *)
Lemma C7_counterexample :
  get_strings "'a' | | 'b'" = Raise AttributeError /\
  gen_enum_def "E" "'a' | | 'b'" = Raise AttributeError.
Proof. split; reflexivity. Qed.

(** C7 (amended).  When a union expression of ASCII text is split on [|],
    a segment from which no word token can be extracted makes the generator
    raise ([AttributeError], from the absent match): no list of tokens and no
    enum definition is produced. *)
Theorem C7_wordless_segment_raises (enum_name line seg : string) :
  ascii_text line ->
  In seg (split "|" line) ->
  has_char Re.word seg = false ->
  get_strings line = Raise AttributeError /\
  gen_enum_def enum_name line = Raise AttributeError.
Proof.
  intros _ Hin Hseg.
  assert (H : wf_union line = false).
  { unfold wf_union. destruct (forallb _ _) eqn:E; [|reflexivity].
    rewrite forallb_forall in E. rewrite (E _ Hin) in Hseg. discriminate. }
  split; [apply get_strings_raise | apply gen_enum_def_raise]; assumption.
Qed.

Lemma C7_wordless_segment_raises_witness :
  get_strings "'a' | " = Raise AttributeError /\
  gen_enum_def "E" "'a' | " = Raise AttributeError.
Proof.
  apply (@C7_wordless_segment_raises "E" "'a' | " " ").
  - reflexivity.
  - vm_compute. right. left. reflexivity.
  - reflexivity.
Defined.

(** On the tokens the generator extracts the derivation never raises, and
    never meets a space. *)
Lemma extracted_token_variant (line t : string) (strings : list string) :
  get_strings line = Ok strings -> In t strings ->
  split " " t = [t] /\ str_to_variant t = Ok (cap_first t).
Proof.
  intros Hs Hin. pose proof (get_strings_tokens _ Hs) as Htok.
  rewrite Forall_forall in Htok. destruct (Htok _ Hin) as [Hne Hw].
  split; [|apply str_to_variant_token; assumption].
  apply split_no_sep. eapply all_chars_impl; [|exact Hw].
  intros c Hc. rewrite (word_not_space _ Hc). reflexivity.
Qed.

(** C4 (code bug).  The derivation itself does what the claim says:
    [str_to_variant] turns "in progress" into [InProgress].  But the
    generator never hands it a literal with a space: [get_strings] keeps one
    run of word characters per segment, so for the union
    ['in progress' | 'done'] the tokens are "in" and "done", the variant is
    [In], and the parse arm matches the string "in". *)
Theorem C4_spaced_literal_cut :
  str_to_variant "in progress" = Ok "InProgress" /\
  get_strings "'in progress' | 'done'" = Ok ["in"; "done"] /\
  variants_of ["in"; "done"] = Ok [Unit "In"; Unit "Done"] /\
  match_arms_of ["in"; "done"] "E" =
    Ok [Lit "in" "In"; Lit "done" "Done"; Fail "E"] /\
  enum2str_arms_of ["in"; "done"] = Ok [Back "In" "in"; Back "Done" "done"].
Proof. repeat split; reflexivity. Qed.

(** ** The interface generator *)

(** C5 (counterexample).  A field named [subcommand] is not a discriminator,
    yet its line holds the text [command: ] and is dropped. *)
Lemma C5_counterexample :
  should_remove "  subcommand: string;" = true.
Proof. reflexivity. Qed.

(** C5 (amended).  The line filter drops a line of ASCII text if and only
    if it is empty or whitespace-only, or holds anywhere one of: two spaces
    followed by the doc-comment opening delimiter, two spaces followed by the
    closing delimiter, the nested-body marker [body: {], the block-closing marker
    [};], or the text [event: ] or [command: ].  A field whose name merely
    ends with [event] or [command] is therefore dropped as well. *)
Theorem C5_line_filter (line : string) :
  ascii_text line ->
  should_remove line = true <->
  strip line = EmptyString \/
  contains "  /**" line \/ contains "  */" line \/
  contains "body: {" line \/ contains "};" line \/
  contains "event: " line \/ contains "command: " line.
Proof. intros _. apply should_remove_spec. Qed.

Lemma C5_line_filter_witness :
  should_remove "  subcommand: string;" = true <->
  strip "  subcommand: string;" = EmptyString \/
  contains "  /**" "  subcommand: string;" \/
  contains "  */" "  subcommand: string;" \/
  contains "body: {" "  subcommand: string;" \/
  contains "};" "  subcommand: string;" \/
  contains "event: " "  subcommand: string;" \/
  contains "command: " "  subcommand: string;".
Proof.
  apply (@C5_line_filter "  subcommand: string;"). reflexivity.
Defined.

(** C6 (counterexample).  The name [Foo] has no upper-case interior letter
    and is not returned unchanged: it comes back lower-cased. *)
Lemma C6_counterexample :
  has_char isupper "oo" = false /\
  this_is_snek "Foo" = "foo" /\
  "foo" <> "Foo".
Proof. repeat split; try reflexivity. discriminate. Qed.

(** C6 (amended).  On names of ASCII text, field-name conversion maps
    [someFieldName] to [some_field_name]: an underscore is inserted before
    every upper-case letter that is not the first character, then the whole
    name is lower-cased; every name with no upper-case letter at all is
    returned unchanged. *)
Theorem C6_snake_case (name : string) :
  ascii_text name ->
  this_is_snek name = str_lower (snake name) /\
  this_is_snek "someFieldName" = "some_field_name" /\
  (has_char isupper name = false -> this_is_snek name = name).
Proof.
  intros _.
  split; [apply this_is_snek_spec|]. split; [reflexivity|].
  intros H. rewrite this_is_snek_spec.
  destruct name as [|c s]; [reflexivity|].
  cbn [snake]. cbn [has_char] in H. apply orb_false_iff in H as [Hc Hs].
  rewrite underscore_upper_id by assumption.
  apply str_lower_id. cbn [has_char]. rewrite Hc, Hs. reflexivity.
Qed.

Lemma C6_snake_case_witness : this_is_snek "name" = "name".
Proof.
  refine (proj2 (proj2 (@C6_snake_case "name" _)) _); reflexivity.
Defined.

(** C3 (counterexample).  With the comma of the claim the line is not a
    union-typed field for the extractor, whose pattern ends at a semicolon:
    no enum is generated and the line is left as it is. *)
Lemma C3_counterexample :
  rewrite_enums
    ["interface Issue {"; "status?: 'open' | 'closed' | string,"; "}"] =
  Ok ([], ["interface Issue {"; "status?: 'open' | 'closed' | string,"; "}"]) /\
  main ["interface Issue {"; "status?: 'open' | 'closed' | string,"; "}"] =
  Ok [""; "pub struct Issue {"; "status?: 'open' | 'closed' | String,"; "}"].
Proof. split; reflexivity. Qed.

(** C3 (amended).  For the input line [status?: 'open' | 'closed' | string;]
    (ended by a semicolon) inside an interface named [Issue], the pipeline
    generates an enum named [IssueStatus] whose variants are [Open], [Closed]
    and the string-carrying variant, and rewrites the field line to
    reference [Option<IssueStatus>]. *)
Theorem C3_issue_status :
  exists def,
    gen_enum_def "IssueStatus" "'open' | 'closed' | string" = Ok def /\
    (strings <- get_strings "'open' | 'closed' | string" ;; variants_of strings)
      = Ok [Unit "Open"; Unit "Closed"; Carry] /\
    rewrite_enums
      ["interface Issue {"; "status?: 'open' | 'closed' | string;"; "}"] =
    Ok ([("IssueStatus", def)],
        ["interface Issue {"; "  pub status: Option<IssueStatus>;"; "}"]) /\
    main ["interface Issue {"; "status?: 'open' | 'closed' | string;"; "}"] =
    Ok [def; ""; "pub struct Issue {"; "  pub status: Option<IssueStatus>,"; "}"].
Proof.
  eexists. split; [vm_compute; reflexivity|].
  repeat split; vm_compute; reflexivity.
Qed.

Section Order.

#[local] Open Scope list_scope.

(** C8 (counterexample).  The fields [kind], [mode], [kind] of one interface
    generate the names [AKind], [AMode], [AKind].  The block of the third
    field takes the place of the first one's in the dictionary, so it is
    printed before the block of the second field, which comes earlier in the
    file; the block of the first field is not printed at all. *)
Lemma C8_counterexample :
  exists b_kind1 b_mode b_kind2 rest,
    gen_enum_def "AKind" "'a' | 'b'" = Ok b_kind1 /\
    gen_enum_def "AMode" "'c' | 'd'" = Ok b_mode /\
    gen_enum_def "AKind" "'e' | 'f'" = Ok b_kind2 /\
    main ["interface A {"; "  kind: 'a' | 'b';"; "  mode: 'c' | 'd';";
          "  kind: 'e' | 'f';"; "}"] = Ok (b_kind2 :: b_mode :: rest) /\
    b_kind2 <> b_mode /\
    ~ In b_kind2 rest /\
    ~ In b_kind1 (b_kind2 :: b_mode :: rest).
Proof.
  do 4 eexists.
  split; [vm_compute; reflexivity|].
  split; [vm_compute; reflexivity|].
  split; [vm_compute; reflexivity|].
  split; [vm_compute; reflexivity|].
  split; [apply String.eqb_neq; vm_compute; reflexivity|].
  split; intros H; apply str_in_In in H; vm_compute in H; discriminate H.
Qed.

(** C8 (amended).  For every input file of ASCII text whose union
    expressions all have a word in each segment and whose union-typed fields
    generate pairwise distinct enum names, the driver prints the enum blocks
    of the fields in the line order of the fields, then an empty line, then
    the rewritten struct body. *)
Theorem C8_discovery_order (ls : list string) :
  ascii_lines ls ->
  wf_unions ls ->
  NoDup (map fst (discovered None ls)) ->
  exists gens,
    mapM generate (discovered None ls) = Ok gens /\
    rewrite_enums ls = Ok (gens, rewritten None ls) /\
    main ls = Ok (map snd gens ++ [EmptyString] ++ body (rewritten None ls)).
Proof.
  intros _ Hwf Hnd. destruct (generate_total Hwf) as [gens Hg].
  exists gens. split; [assumption|].
  assert (E : rewrite_enums ls = Ok (gens, rewritten None ls)).
  { rewrite rewrite_enums_spec, Hg. cbn [bind].
    rewrite dict_update_nodup; [reflexivity|].
    cbn [app]. destruct (generate_shape _ Hg) as [-> _]. assumption. }
  split; [assumption|].
  unfold main. rewrite E. reflexivity.
Qed.

Lemma C8_discovery_order_witness :
  exists gens,
    mapM generate [("AKind", "'a' | 'b'"); ("AMode", "'c' | 'd'")] = Ok gens /\
    rewrite_enums ["interface A {"; "  kind: 'a' | 'b';"; "  name: string;";
                   "  mode: 'c' | 'd';"; "}"] =
    Ok (gens, ["interface A {"; "  pub kind: AKind;"; "  name: string;";
               "  pub mode: AMode;"; "}"]) /\
    main ["interface A {"; "  kind: 'a' | 'b';"; "  name: string;";
          "  mode: 'c' | 'd';"; "}"] =
    Ok (map snd gens ++ [EmptyString] ++
        body ["interface A {"; "  pub kind: AKind;"; "  name: string;";
              "  pub mode: AMode;"; "}"]).
Proof.
  apply (@C8_discovery_order
           ["interface A {"; "  kind: 'a' | 'b';"; "  name: string;";
            "  mode: 'c' | 'd';"; "}"]).
  - repeat constructor.
  - vm_compute. repeat constructor.
  - vm_compute. repeat constructor; cbn [In]; intuition discriminate.
Defined.



(** C10.  For every union-typed field the derived enum name is the name of
    the enclosing interface followed by the field name with its first
    character upper-cased and every later character lower-cased, so that no
    upper-case letter of a camelCase field name survives after the first
    character: [presentationHint] inside [Source] gives
    [SourcePresentationhint].  (The file is ASCII text and its unions have a
    word in each segment, as the generator needs.) *)
Theorem C10_enum_name_lowercased (pre post : list string) (line iface : string)
    (m : Re.rmatch) (c : ascii) (r : string) :
  ascii_lines (pre ++ line :: post) ->
  enclosing None pre = Some iface ->
  Re.rmatch_at_start RE.INTERFACE line = None ->
  Re.rmatch_at_start RE.ENUM line = Some m ->
  Re.group_str "var" m = String c r ->
  wf_unions (pre ++ line :: post) ->
  let typename := (iface ++ String (upper c) (str_lower r))%string in
  has_char isupper (str_lower r) = false /\
  exists en ls',
    rewrite_enums (pre ++ line :: post) = Ok (en, ls') /\
    is_some (dict_get en typename) = true /\
    nth_error ls' (List.length pre) =
    Some (field_ref (String c r) (is_some (Re.group "opt" m)) typename).
Proof.
  intros _ Hpre Hi He Hv Hwf typename. split; [apply str_lower_no_upper|].
  pose proof (@classify_union line m Hi He) as Hc.
  destruct (@rewrite_enums_at_field pre post line _ _ _ Hc Hwf) as [en [ls' [E [Hk Hl]]]].
  rewrite Hpre, Hv in Hk, Hl.
  exists en, ls'. auto.
Qed.

Lemma C10_enum_name_lowercased_witness :
  has_char isupper (str_lower "resentationHint") = false /\
  exists en ls',
    rewrite_enums
      ["interface Source {";
       "  presentationHint?: 'normal' | 'emphasize' | 'deemphasize';"; "}"] =
    Ok (en, ls') /\
    is_some (dict_get en "SourcePresentationhint") = true /\
    nth_error ls' 1 =
    Some "  pub presentationHint: Option<SourcePresentationhint>;".
Proof.
  refine (@C10_enum_name_lowercased ["interface Source {"] ["}"]
            "  presentationHint?: 'normal' | 'emphasize' | 'deemphasize';"
            "Source"
            (Re.RMatch 0 60
               [("variants", "'normal' | 'emphasize' | 'deemphasize'");
                ("opt", "?"); ("var", "presentationHint")])
            "p" "resentationHint" _ _ _ _ _ _).
  - repeat constructor.
  - reflexivity.
  - reflexivity.
  - reflexivity.
  - reflexivity.
  - vm_compute. repeat constructor.
Defined.

End Order.

(** ** Further properties of the enum generator *)

(** X1.  On a union expression of ASCII text the enum generator returns a
    definition exactly when every segment of the expression holds a word
    character, and raises [AttributeError] otherwise; the [IndexError] of
    [cap] never escapes it. *)
Theorem gen_enum_def_outcome (enum_name expr : string) :
  ascii_text expr ->
  if wf_union expr
  then exists def, gen_enum_def enum_name expr = Ok def
  else gen_enum_def enum_name expr = Raise AttributeError.
Proof.
  intros _. destruct (wf_union expr) eqn:E.
  - apply gen_enum_def_total; assumption.
  - apply gen_enum_def_raise; assumption.
Qed.

Lemma gen_enum_def_outcome_witness :
  gen_enum_def "E" "'a' | | 'b'" = Raise AttributeError.
Proof.
  exact (@gen_enum_def_outcome "E" "'a' | | 'b'" eq_refl).
Defined.

(** X2.  Variant-name derivation raises [IndexError] exactly when the
    literal has an empty space-separated piece (the empty literal, a leading,
    trailing or doubled space); otherwise, on ASCII text, it returns the
    pieces, each with its first character upper-cased, concatenated. *)
Theorem str_to_variant_outcome (s : string) :
  ascii_text s ->
  if str_in EmptyString (split " " s)
  then str_to_variant s = Raise IndexError
  else str_to_variant s = Ok (join (map cap_first (split " " s))).
Proof.
  intros _. destruct (str_in EmptyString (split " " s)) eqn:E.
  - apply str_in_In in E. unfold str_to_variant.
    rewrite mapM_cap_empty by assumption. reflexivity.
  - apply str_to_variant_words. apply Forall_forall. intros w Hin ->.
    apply str_in_In in Hin. congruence.
Qed.

Lemma str_to_variant_outcome_witness :
  str_to_variant "not started" = Ok "NotStarted".
Proof.
  exact (@str_to_variant_outcome "not started" eq_refl).
Defined.

Lemma to_string_handled (strings : list string) (us : list unparse_arm)
    (item : string) :
  Forall2 unparse_arm_for strings us ->
  (forall x, In x strings -> is_token x) ->
  In item strings -> item <> "string" ->
  exists lit, to_string us (Closed (cap_first item)) = Some lit /\
              In lit strings /\ cap_first lit = cap_first item.
Proof.
  intros Hu. induction Hu as [|it a l l' Hx _ IH]; intros Htok Hin Hne;
    [contradiction|].
  assert (Htok' : forall x, In x l -> is_token x)
    by (intros x Hx'; apply Htok; right; assumption).
  destruct Hx as [[-> ->]|[Hit [v [Hv ->]]]]; cbn [to_string].
  - destruct Hin as [<-|Hin]; [congruence|].
    destruct (IH Htok' Hin Hne) as [lit [E [Hl Hc]]].
    exists lit. split; [assumption|]. split; [right|]; assumption.
  - destruct (Htok it (or_introl eq_refl)) as [Hne' Hw].
    rewrite (str_to_variant_token Hne' Hw) in Hv. inversion Hv; subst v.
    destruct (String.eqb_spec (cap_first item) (cap_first it)) as [E|E].
    + exists it. split; [reflexivity|]. split; [left; reflexivity | congruence].
    + destruct Hin as [->|Hin]; [congruence|].
      destruct (IH Htok' Hin Hne) as [lit [E' [Hl Hc]]].
      exists lit. split; [assumption|]. split; [right|]; assumption.
Qed.

(** X3.  For a union of ASCII text whose declaration is Rust (see
    [rust_wf]: an upper-case enum name other than the template's own names,
    the open marker last, closed tokens that start with a letter and have
    distinct variant names, none [Self], [Err] or a second [String]) the
    generated [match]es are exhaustive: the parse routine handles every input
    string, and the unparse routine handles every value of the generated
    enum, that is every variant named after a closed literal and, when the
    open marker is listed, the carrying variant with any payload. *)
Theorem generated_matches_exhaustive (line enum_name : string)
    (strings : list string) :
  ascii_text line ->
  get_strings line = Ok strings ->
  rust_wf enum_name strings ->
  exists ps us,
    match_arms_of strings enum_name = Ok ps /\
    enum2str_arms_of strings = Ok us /\
    (forall s, exists r, from_str ps s = Some r) /\
    (forall item, In item strings -> item <> "string" ->
       exists lit, to_string us (Closed (cap_first item)) = Some lit /\
                   In lit strings /\ cap_first lit = cap_first item) /\
    (In "string" strings -> forall s, to_string us (Open s) = Some s).
Proof.
  intros _ Hs _. pose proof (get_strings_tokens _ Hs) as Htok.
  destruct (arms_total enum_name Htok) as [ps [us [Hps Hus]]].
  exists ps, us. split; [assumption|]. split; [assumption|].
  pose proof (unparse_arms_shape _ Hus) as Hu.
  unfold match_arms_of in Hps.
  destruct (mapM _ strings) as [arms|] eqn:Ha; [|discriminate].
  cbn [bind] in Hps. inversion Hps as [Eps]. clear Hps.
  pose proof (parse_arms_shape _ Ha) as Hp.
  split; [|split].
  - intros s. destruct (in_dec string_dec "string" strings) as [Hin|Hnin].
    + destruct (in_dec string_dec s strings) as [Hs'|Hs'].
      * destruct (string_dec s "string") as [->|Hne].
        -- eexists. eapply from_str_unlisted_open; eauto.
        -- destruct (@from_str_listed strings arms
                       (if negb (str_in "string" strings)
                        then [Fail enum_name] else []) s Hp Hs' Hne)
             as [[v [_ E]]|[_ E]]; rewrite E; eauto.
      * eexists. eapply from_str_unlisted_open; eauto.
        intros item Hi _ ->. contradiction.
    + assert (E : str_in "string" strings = false).
      { destruct (str_in "string" strings) eqn:E; [|reflexivity].
        apply str_in_In in E. contradiction. }
      rewrite E. cbn [negb].
      destruct (in_dec string_dec s strings) as [Hs'|Hs'].
      * assert (Hne : s <> "string") by (intros ->; contradiction).
        destruct (@from_str_listed strings arms [Fail enum_name] s Hp Hs' Hne)
          as [[v [_ E']]|[Hin _]]; [rewrite E'; eauto | contradiction].
      * rewrite (@from_str_unlisted_closed strings arms [Fail enum_name] s
                   Hp Hs' Hnin). cbn [from_str]. eauto.
  - intros item Hin Hne. rewrite Forall_forall in Htok.
    exact (to_string_handled Hu Htok Hin Hne).
  - intros Hin s. eapply to_string_open; eauto.
Qed.

Lemma generated_matches_exhaustive_witness :
  exists ps us,
    match_arms_of ["open"; "closed"] "IssueStatus" = Ok ps /\
    enum2str_arms_of ["open"; "closed"] = Ok us /\
    (forall s, exists r, from_str ps s = Some r) /\
    (forall item, In item ["open"; "closed"] -> item <> "string" ->
       exists lit, to_string us (Closed (cap_first item)) = Some lit /\
                   In lit ["open"; "closed"] /\ cap_first lit = cap_first item) /\
    (In "string" ["open"; "closed"] -> forall s, to_string us (Open s) = Some s).
Proof.
  apply (@generated_matches_exhaustive "'open' | 'closed'" "IssueStatus").
  - reflexivity.
  - reflexivity.
  - split; [|split; [reflexivity|split; [|split]]].
    + split; [reflexivity|]. split; [reflexivity|].
      cbn [template_names In]. intuition discriminate.
    + vm_compute. repeat constructor; cbn [In]; intuition discriminate.
    + vm_compute. repeat constructor; discriminate.
    + vm_compute. intros [H|[H|[]]]; discriminate H.
Defined.

(** ** Further properties of the interface generator *)

Lemma this_is_snek_fixed (name : string) :
  has_char isupper name = false -> this_is_snek name = name.
Proof.
  intros H. rewrite this_is_snek_spec.
  destruct name as [|c s]; [reflexivity|].
  cbn [snake]. cbn [has_char] in H. apply orb_false_iff in H as [Hc Hs].
  rewrite underscore_upper_id by assumption.
  apply str_lower_id. cbn [has_char]. rewrite Hc, Hs. reflexivity.
Qed.

(** X4.  The snake-case conversion yields a name without upper-case letters
    and is idempotent: converting a converted name changes nothing. *)
Theorem this_is_snek_idempotent (name : string) :
  has_char isupper (this_is_snek name) = false /\
  this_is_snek (this_is_snek name) = this_is_snek name.
Proof.
  assert (H : has_char isupper (this_is_snek name) = false).
  { unfold this_is_snek. apply str_lower_no_upper. }
  split; [exact H | apply this_is_snek_fixed; exact H].
Qed.

Section Dictionary.

#[local] Open Scope list_scope.

Lemma lookup_app (k : string) (a b : list (string * string)) :
  Re.lookup k (a ++ b) =
  match Re.lookup k a with
  | Some v => Some v
  | None => Re.lookup k b
  end.
Proof.
  induction a as [|[n v] a IH]; cbn [app Re.lookup]; [reflexivity|].
  destruct (String.eqb n k); [reflexivity | exact IH].
Qed.

Lemma dict_update_get (ps : list (string * string)) :
  forall (d : dict) (k : string),
    dict_get (dict_update d ps) k =
    match Re.lookup k (rev ps) with
    | Some v => Some v
    | None => dict_get d k
    end.
Proof.
  induction ps as [|[a b] ps IH]; intros d k; cbn [dict_update fold_left rev].
  - reflexivity.
  - change (fold_left _ ps ?x) with (dict_update x ps).
    rewrite IH, lookup_app, dict_get_set. cbn [fst snd Re.lookup].
    destruct (Re.lookup k (rev ps)); [reflexivity|].
    destruct (String.eqb a k); reflexivity.
Qed.

Lemma dict_set_keys (d : dict) (k v : string) :
  map fst (dict_set d k v) =
  if in_dec string_dec k (map fst d) then map fst d else map fst d ++ [k].
Proof.
  induction d as [|[a b] d IH].
  - cbn. reflexivity.
  - cbn [dict_set]. destruct (String.eqb_spec a k) as [->|Hne].
    + cbn [map fst].
      destruct (in_dec string_dec k (k :: map fst d)) as [_|H]; [reflexivity|].
      exfalso. apply H. left; reflexivity.
    + cbn [map fst]. rewrite IH.
      destruct (in_dec string_dec k (map fst d)) as [Hin|Hnin];
        destruct (in_dec string_dec k (a :: map fst d)) as [H|H];
        try reflexivity.
      * exfalso. apply H. right; assumption.
      * destruct H as [H|H]; [congruence | contradiction].
Qed.

Lemma dict_set_nodup (d : dict) (k v : string) :
  NoDup (map fst d) -> NoDup (map fst (dict_set d k v)).
Proof.
  intros H. rewrite dict_set_keys.
  destruct (in_dec string_dec k (map fst d)) as [Hin|Hnin]; [assumption|].
  apply NoDup_app; [assumption | repeat constructor; intros [] |].
  intros x Hx [<-|[]]. contradiction.
Qed.

Lemma dict_update_nodup_keys (ps : list (string * string)) :
  forall d : dict, NoDup (map fst d) -> NoDup (map fst (dict_update d ps)).
Proof.
  induction ps as [|p ps IH]; intros d H; cbn [dict_update fold_left].
  - assumption.
  - apply IH, dict_set_nodup, H.
Qed.

Lemma generate_raises (ps : list (string * string)) :
  Exists (fun p => wf_union (snd p) = false) ps ->
  mapM generate ps = Raise AttributeError.
Proof.
  intros H. apply mapM_raise.
  - intros p _. unfold generate.
    pose proof (@gen_enum_def_total (fst p) (snd p)) as Ht.
    pose proof (@gen_enum_def_raise (fst p) (snd p)) as Hr.
    destruct (wf_union (snd p)).
    + left. destruct (Ht eq_refl) as [b ->]. eexists; reflexivity.
    + right. rewrite (Hr eq_refl). reflexivity.
  - apply Exists_exists in H as [p [Hin Hp]]. exists p. split; [assumption|].
    unfold generate. rewrite (@gen_enum_def_raise (fst p) (snd p) Hp). reflexivity.
Qed.

Lemma rewritten_nth (ls : list string) :
  forall (sn : option string) (i : nat) (l : string),
    nth_error ls i = Some l ->
    match classify l with
    | UnionField v o _ =>
        exists T, nth_error (rewritten sn ls) i = Some (field_ref v o T)
    | _ => nth_error (rewritten sn ls) i = Some l
    end.
Proof.
  induction ls as [|x ls IH]; intros sn i l H.
  - destruct i; discriminate.
  - destruct i as [|i]; cbn [nth_error rewritten] in *.
    + inversion H; subst x. destruct (classify l); cbn [nth_error]; eauto.
    + destruct (classify x); cbn [nth_error]; apply IH; assumption.
Qed.

(** X5.  On a file of ASCII text whose union expressions all have a word in
    each segment the extractor returns a dictionary in which every generated
    name occurs once, holding the block of the last field that generated that
    name; the driver prints the dictionary values, an empty line and the
    body. *)
Theorem rewrite_enums_last_write_wins (ls : list string) :
  ascii_lines ls ->
  wf_unions ls ->
  exists gens en ls',
    mapM generate (discovered None ls) = Ok gens /\
    rewrite_enums ls = Ok (en, ls') /\
    NoDup (map fst en) /\
    (forall name, dict_get en name = Re.lookup name (rev gens)) /\
    main ls = Ok (values en ++ [EmptyString] ++ body ls').
Proof.
  intros _ Hwf. destruct (generate_total Hwf) as [gens Hg].
  exists gens, (dict_update [] gens), (rewritten None ls).
  assert (E : rewrite_enums ls = Ok (dict_update [] gens, rewritten None ls)).
  { rewrite rewrite_enums_spec, Hg. reflexivity. }
  split; [assumption|]. split; [assumption|]. split; [|split].
  - apply dict_update_nodup_keys. constructor.
  - intros name. rewrite dict_update_get.
    destruct (Re.lookup name (rev gens)); reflexivity.
  - unfold main. rewrite E. reflexivity.
Qed.

Lemma rewrite_enums_last_write_wins_witness :
  exists gens en ls',
    mapM generate
      [("AKind", "'a' | 'b'"); ("AMode", "'c' | 'd'"); ("AKind", "'e' | 'f'")]
      = Ok gens /\
    rewrite_enums ["interface A {"; "  kind: 'a' | 'b';"; "  mode: 'c' | 'd';";
                   "  kind: 'e' | 'f';"] = Ok (en, ls') /\
    NoDup (map fst en) /\
    (forall name, dict_get en name = Re.lookup name (rev gens)) /\
    main ["interface A {"; "  kind: 'a' | 'b';"; "  mode: 'c' | 'd';";
          "  kind: 'e' | 'f';"] = Ok (values en ++ [EmptyString] ++ body ls').
Proof.
  apply (@rewrite_enums_last_write_wins
           ["interface A {"; "  kind: 'a' | 'b';"; "  mode: 'c' | 'd';";
            "  kind: 'e' | 'f';"]).
  - repeat constructor.
  - vm_compute. repeat constructor.
Defined.

(** X6.  On a file of ASCII text whose union expressions all have a word in
    each segment, the extractor neither adds, drops nor reorders lines: the
    list it leaves has the length of the input, a union-typed field line is
    replaced in place by a field referencing a type, and every other line is
    left as it was. *)
Theorem rewrite_enums_keeps_lines (ls : list string) :
  ascii_lines ls ->
  wf_unions ls ->
  exists en ls',
    rewrite_enums ls = Ok (en, ls') /\
    List.length ls' = List.length ls /\
    forall i l,
      nth_error ls i = Some l ->
      match classify l with
      | UnionField v o _ =>
          exists T, nth_error ls' i = Some (field_ref v o T)
      | _ => nth_error ls' i = Some l
      end.
Proof.
  intros _ Hwf. destruct (generate_total Hwf) as [gens Hg].
  exists (dict_update [] gens), (rewritten None ls).
  split; [rewrite rewrite_enums_spec, Hg; reflexivity|].
  split; [apply rewritten_length|].
  intros i l H. apply rewritten_nth. assumption.
Qed.

Lemma rewrite_enums_keeps_lines_witness :
  exists en ls',
    rewrite_enums ["interface A {"; "  kind: 'a' | 'b';"; "  name: string;"]
      = Ok (en, ls') /\
    List.length ls' = 3 /\
    forall i l,
      nth_error ["interface A {"; "  kind: 'a' | 'b';"; "  name: string;"] i
        = Some l ->
      match classify l with
      | UnionField v o _ =>
          exists T, nth_error ls' i = Some (field_ref v o T)
      | _ => nth_error ls' i = Some l
      end.
Proof.
  apply (@rewrite_enums_keeps_lines
           ["interface A {"; "  kind: 'a' | 'b';"; "  name: string;"]).
  - repeat constructor.
  - vm_compute. repeat constructor.
Defined.

(** X7.  If some union-typed field of the file has a segment without a word
    character, the extractor raises [AttributeError], and so does the driver,
    before it prints anything. *)
Theorem main_raises (ls : list string) :
  Exists (fun p => wf_union (snd p) = false) (discovered None ls) ->
  rewrite_enums ls = Raise AttributeError /\
  main ls = Raise AttributeError.
Proof.
  intros H.
  assert (E : rewrite_enums ls = Raise AttributeError).
  { rewrite rewrite_enums_spec, (generate_raises H). reflexivity. }
  split; [assumption|]. unfold main. rewrite E. reflexivity.
Qed.

Lemma main_raises_witness :
  rewrite_enums ["interface A {"; "  name: string;"; "  kind: 'a' | ;"]
    = Raise AttributeError /\
  main ["interface A {"; "  name: string;"; "  kind: 'a' | ;"]
    = Raise AttributeError.
Proof.
  apply (@main_raises ["interface A {"; "  name: string;"; "  kind: 'a' | ;"]).
  vm_compute. constructor. reflexivity.
Defined.

End Dictionary.

(** ** Union expressions and their tokens *)

Lemma str_app_assoc (a b c : string) : (a ++ b) ++ c = a ++ (b ++ c).
Proof. induction a as [|x a IH]; cbn [append]; congruence. Qed.

Lemma str_app_nil_r (a : string) : a ++ EmptyString = a.
Proof. induction a as [|x a IH]; cbn [append]; congruence. Qed.

Lemma split_at_sep (sep : ascii) (a b : string) :
  all_chars (fun c => negb (Ascii.eqb c sep)) a = true ->
  split sep (a ++ String sep b) = a :: split sep b.
Proof.
  induction a as [|c a IH]; cbn [all_chars append split]; intros H.
  - rewrite Ascii.eqb_refl. reflexivity.
  - apply andb_true_iff in H as [Hc Ha]. apply negb_true_iff in Hc.
    rewrite Hc, IH by assumption. reflexivity.
Qed.

Lemma all_chars_app (p : ascii -> bool) (a b : string) :
  all_chars p (a ++ b) = all_chars p a && all_chars p b.
Proof.
  induction a as [|c a IH]; cbn [all_chars append]; [reflexivity|].
  rewrite IH, andb_assoc. reflexivity.
Qed.

Lemma first_word_skip (pre s : string) :
  all_chars (fun c => negb (Re.word c)) pre = true ->
  first_word (pre ++ s) = first_word s.
Proof.
  induction pre as [|c pre IH]; cbn [all_chars append first_word]; intros H.
  - reflexivity.
  - apply andb_true_iff in H as [Hc Hp]. apply negb_true_iff in Hc.
    rewrite Hc. apply IH, Hp.
Qed.

Lemma take_while_stop (p : ascii -> bool) (w post : string) :
  all_chars p w = true ->
  match post with String c _ => p c = false | EmptyString => True end ->
  take_while p (w ++ post) = w.
Proof.
  intros Hw Hpost. induction w as [|c w IH]; cbn [append take_while].
  - destruct post as [|d post]; [reflexivity|]. cbn [take_while].
    rewrite Hpost. reflexivity.
  - cbn [all_chars] in Hw. apply andb_true_iff in Hw as [Hc Hw].
    rewrite Hc, IH by assumption. reflexivity.
Qed.

Lemma first_word_token (t post : string) :
  is_token t ->
  match post with String c _ => Re.word c = false | EmptyString => True end ->
  first_word (t ++ post) = Some t.
Proof.
  intros [Hne Hw] Hpost. destruct t as [|c t]; [congruence|].
  cbn [all_chars] in Hw. apply andb_true_iff in Hw as [Hc Hw].
  cbn [append first_word]. rewrite Hc, take_while_stop by assumption.
  reflexivity.
Qed.

Lemma first_word_segment (seg : bool * string) (pre post : string) :
  is_token (snd seg) ->
  all_chars (fun c => negb (Re.word c)) pre = true ->
  match post with String c _ => Re.word c = false | EmptyString => True end ->
  first_word (pre ++ segment_text seg ++ post) = Some (snd seg).
Proof.
  intros Ht Hpre Hpost. rewrite first_word_skip by assumption.
  destruct seg as [[|] t]; cbn [segment_text fst snd] in *.
  - change ("'" ++ t ++ "'") with (String "'" (t ++ "'")).
    cbn [append first_word]. rewrite quote_not_word.
    rewrite str_app_assoc. apply first_word_token; [assumption|].
    reflexivity.
  - apply first_word_token; assumption.
Qed.

Lemma word_not_bar (c : ascii) : Re.word c = true -> Ascii.eqb c "|" = false.
Proof.
  intros H. destruct (Ascii.eqb_spec c "|") as [->|]; [discriminate H | reflexivity].
Qed.

Lemma segment_no_bar (seg : bool * string) :
  is_token (snd seg) ->
  all_chars (fun c => negb (Ascii.eqb c "|")) (segment_text seg) = true.
Proof.
  intros [_ Hw].
  assert (H : all_chars (fun c => negb (Ascii.eqb c "|")) (snd seg) = true).
  { eapply all_chars_impl; [|exact Hw].
    intros c Hc. rewrite (word_not_bar _ Hc). reflexivity. }
  destruct seg as [[|] t]; cbn [segment_text fst snd] in *; [|assumption].
  change ("'" ++ t ++ "'") with (String "'" (t ++ "'")).
  cbn [all_chars]. rewrite all_chars_app, H. reflexivity.
Qed.

Lemma tokens_of_union (segs : list (bool * string)) :
  Forall (fun seg => is_token (snd seg)) segs ->
  segs <> [] ->
  forall pre,
    all_chars (fun c => negb (Re.word c)) pre = true ->
    all_chars (fun c => negb (Ascii.eqb c "|")) pre = true ->
    mapM (fun item => match first_word item with
                      | Some w => Ok w
                      | None => Raise AttributeError
                      end)
         (split "|" (pre ++ union_expr segs)) = Ok (map snd segs).
Proof.
  induction 1 as [|seg segs Hseg Hsegs IH]; intros Hne pre Hpre Hbar.
  - congruence.
  - unfold union_expr. cbn [map String.concat].
    destruct segs as [|seg2 segs].
    + cbn [map]. rewrite split_no_sep.
      * cbn [mapM]. rewrite <- (str_app_nil_r (segment_text seg)) at 1.
        rewrite (first_word_segment seg pre EmptyString Hseg Hpre I).
        reflexivity.
      * rewrite all_chars_app, Hbar, segment_no_bar by assumption. reflexivity.
    + cbn [map].
      change (" | " ++ ?x) with (String " " (String "|" (String " " x))).
      replace (pre ++ segment_text seg ++
               String " " (String "|" (String " "
                 (String.concat " | " (segment_text seg2 :: map segment_text segs)))))
        with ((pre ++ segment_text seg ++ " ") ++
              String "|" (" " ++ union_expr (seg2 :: segs))).
      2:{ unfold union_expr. cbn [map]. rewrite !str_app_assoc. reflexivity. }
      rewrite split_at_sep.
      * cbn [mapM].
        rewrite (first_word_segment seg pre " " Hseg Hpre eq_refl).
        cbn [bind]. rewrite IH; [reflexivity | discriminate | reflexivity..].
      * rewrite !all_chars_app, Hbar, segment_no_bar by assumption. reflexivity.
Qed.

(** X8.  Tokens round-trip through a union expression: for word tokens
    written in quotes or bare and joined with [ | ], the generator reads
    back exactly these tokens, in order. *)
Theorem get_strings_union_expr (segs : list (bool * string)) :
  segs <> [] ->
  Forall (fun seg => is_token (snd seg)) segs ->
  get_strings (union_expr segs) = Ok (map snd segs).
Proof.
  intros Hne Htok. rewrite get_strings_spec.
  exact (tokens_of_union Htok Hne EmptyString eq_refl eq_refl).
Qed.

Lemma get_strings_union_expr_witness :
  get_strings "'normal' | 'emphasize' | string"
  = Ok ["normal"; "emphasize"; "string"].
Proof.
  refine (@get_strings_union_expr
            [(true, "normal"); (true, "emphasize"); (false, "string")] _ _).
  - discriminate.
  - repeat constructor; discriminate.
Defined.

(** X9.  Of a union expression of ASCII text the generator keeps, for each
    [|]-separated segment in order, the first maximal run of word characters
    of that segment: quotes, spaces and whatever follows the first word are
    dropped. *)
Theorem get_strings_first_words (line : string) (strings : list string) :
  ascii_text line ->
  get_strings line = Ok strings ->
  Forall2 (fun item t => first_word item = Some t) (split "|" line) strings /\
  List.length strings = List.length (split "|" line) /\
  Forall is_token strings.
Proof.
  intros _ H. pose proof (get_strings_segments _ H) as Hseg.
  split; [assumption|]. split; [|eapply get_strings_tokens; eauto].
  symmetry. eapply Forall2_length; eauto.
Qed.

Lemma get_strings_first_words_witness :
  Forall2 (fun item t => first_word item = Some t)
          (split "|" "'in progress' | 'done'") ["in"; "done"] /\
  List.length ["in"; "done"] = List.length (split "|" "'in progress' | 'done'") /\
  Forall is_token ["in"; "done"].
Proof.
  apply (@get_strings_first_words "'in progress' | 'done'"); reflexivity.
Defined.

(** ** The matcher only moves forward in the subject *)

Lemma str_length_app (a b : string) :
  String.length (a ++ b) = String.length a + String.length b.
Proof.
  induction a as [|x a IH]; cbn [append String.length Nat.add]; congruence.
Qed.

Lemma star_greedy_reaches (R : Type) (p : ascii -> bool)
    (k : Re.mstate -> option R) (s : string) :
  forall n g x,
    Re.star_greedy p k n s g = Some x ->
    exists pre post,
      s = pre ++ post /\ all_chars p pre = true /\
      k (Re.MState (n + String.length pre) post g) = Some x.
Proof.
  induction s as [|c s IH]; intros n g x H; cbn [Re.star_greedy] in H.
  - exists EmptyString, EmptyString. rewrite Nat.add_0_r. auto.
  - destruct (p c) eqn:Hc.
    + destruct (Re.star_greedy p k (S n) s g) as [y|] eqn:E.
      * inversion H; subst y. destruct (IH _ _ _ E) as [pre [post [-> [Hp Hk]]]].
        exists (String c pre), post. cbn [append all_chars String.length].
        rewrite Hc, Hp, <- plus_n_Sm. auto.
      * exists EmptyString, (String c s). rewrite Nat.add_0_r. auto.
    + exists EmptyString, (String c s). rewrite Nat.add_0_r. auto.
Qed.

Lemma star_lazy_reaches (R : Type) (p : ascii -> bool)
    (k : Re.mstate -> option R) (s : string) :
  forall n g x,
    Re.star_lazy p k n s g = Some x ->
    exists pre post,
      s = pre ++ post /\ all_chars p pre = true /\
      k (Re.MState (n + String.length pre) post g) = Some x.
Proof.
  induction s as [|c s IH]; intros n g x H; cbn [Re.star_lazy] in H.
  - destruct (k (Re.MState n EmptyString g)) as [y|] eqn:E; [|discriminate].
    exists EmptyString, EmptyString. rewrite Nat.add_0_r. rewrite E. auto.
  - destruct (k (Re.MState n (String c s) g)) as [y|] eqn:E.
    + exists EmptyString, (String c s). rewrite Nat.add_0_r, E. auto.
    + destruct (p c) eqn:Hc; [|discriminate].
      destruct (IH _ _ _ H) as [pre [post [-> [Hp Hk]]]].
      exists (String c pre), post. cbn [append all_chars String.length].
      rewrite Hc, Hp, <- plus_n_Sm. auto.
Qed.

(** A successful run hands its continuation a state further on in the same
    subject. *)
Lemma run_reaches (r : Re.regex) :
  forall (R : Type) (st : Re.mstate) (k : Re.mstate -> option R) (x : R),
    Re.run r st k = Some x ->
    exists st' pre,
      k st' = Some x /\
      Re.rest st = pre ++ Re.rest st' /\
      Re.pos st' = Re.pos st + String.length pre.
Proof.
  induction r as [w|p|r1 IH1 r2 IH2|r1 IH1 r2 IH2|r1 IH1|p|p|p|name r1 IH1|r1 IH1|];
    intros R st k x H; cbn [Re.run] in H.
  - destruct (Re.strip_prefix w (Re.rest st)) as [s'|] eqn:E; [|discriminate].
    apply strip_prefix_spec in E. eexists _, w. split; [exact H|].
    cbn [Re.advance Re.rest Re.pos]. auto.
  - destruct (Re.rest st) as [|c s'] eqn:E; [discriminate|].
    destruct (p c); [|discriminate].
    eexists _, (String c EmptyString). split; [exact H|].
    cbn [Re.advance Re.rest Re.pos]. auto.
  - destruct (IH1 _ _ _ _ H) as [st1 [pre1 [H1 [E1 P1]]]].
    destruct (IH2 _ _ _ _ H1) as [st2 [pre2 [H2 [E2 P2]]]].
    exists st2, (pre1 ++ pre2). split; [assumption|].
    rewrite E1, E2, P2, P1, str_app_assoc, str_length_app. split; [reflexivity | lia].
  - destruct (Re.run r1 st k) as [y|] eqn:E.
    + inversion H; subst y. eauto.
    + eauto.
  - destruct (Re.run r1 st k) as [y|] eqn:E.
    + inversion H; subst y. eauto.
    + exists st, EmptyString. rewrite Nat.add_0_r. auto.
  - destruct (star_greedy_reaches _ _ _ _ _ H) as [pre [post [E [_ Hk]]]].
    eexists _, pre. split; [exact Hk|]. cbn [Re.rest Re.pos]. auto.
  - destruct (Re.rest st) as [|c s'] eqn:E; [discriminate|].
    destruct (p c); [|discriminate].
    destruct (star_greedy_reaches _ _ _ _ _ H) as [pre [post [E' [_ Hk]]]].
    eexists _, (String c pre). split; [exact Hk|]. cbn [Re.rest Re.pos].
    subst s'. cbn [append String.length]. split; [reflexivity | lia].
  - destruct (Re.rest st) as [|c s'] eqn:E; [discriminate|].
    destruct (p c); [|discriminate].
    destruct (star_lazy_reaches _ _ _ _ _ H) as [pre [post [E' [_ Hk]]]].
    eexists _, (String c pre). split; [exact Hk|]. cbn [Re.rest Re.pos].
    subst s'. cbn [append String.length]. split; [reflexivity | lia].
  - destruct (IH1 _ _ _ _ H) as [st1 [pre1 [H1 [E1 P1]]]].
    eexists _, pre1. split; [exact H1|]. cbn [Re.rest Re.pos]. auto.
  - destruct (Re.run r1 st (fun _ => Some tt)); [|discriminate].
    exists st, EmptyString. rewrite Nat.add_0_r. auto.
  - destruct (Nat.eqb (Re.pos st) 0); [discriminate|].
    exists st, EmptyString. rewrite Nat.add_0_r. auto.
Qed.

Lemma run_cat_reaches (R : Type) (r1 r2 : Re.regex) (st : Re.mstate)
    (k : Re.mstate -> option R) (x : R) :
  Re.run (Re.Cat r1 r2) st k = Some x ->
  exists st1 pre,
    Re.run r2 st1 k = Some x /\ Re.rest st = pre ++ Re.rest st1.
Proof.
  intros H. cbn [Re.run] in H.
  destruct (run_reaches _ _ _ H) as [st1 [pre [H1 [E _]]]]. eauto.
Qed.

Lemma search_from_none (r : Re.regex) (P : ascii -> bool) :
  (forall n t, all_chars P t = true -> Re.try_at r false n t = None) ->
  forall s n, all_chars P s = true -> Re.search_from r n s = None.
Proof.
  intros Hno. induction s as [|c s IH]; intros n Hs; cbn [Re.search_from];
    rewrite (Hno _ _ Hs); [reflexivity|].
  cbn [all_chars] in Hs. apply andb_true_iff in Hs as [_ Hs]. apply IH, Hs.
Qed.

Lemma field_needs_comma (n : nat) (t : string) :
  all_chars (fun c => negb (Ascii.eqb "," c)) t = true ->
  Re.try_at RE.FIELD false n t = None.
Proof.
  intros Hno. unfold Re.try_at, RE.FIELD. cbn [cat].
  match goal with |- ?X = None => destruct X as [m|] eqn:H end; [|reflexivity].
  exfalso.
  apply run_cat_reaches in H as [st1 [p1 [H E1]]].
  apply run_cat_reaches in H as [st2 [p2 [H E2]]].
  apply run_cat_reaches in H as [st3 [p3 [H E3]]].
  apply run_cat_reaches in H as [st4 [p4 [H E4]]].
  apply run_cat_reaches in H as [st5 [p5 [H E5]]].
  cbn [Re.run Re.chr] in H.
  destruct (Re.rest st5) as [|c s'] eqn:E; [discriminate|].
  destruct (Ascii.eqb "," c) eqn:Hc; [|discriminate].
  cbn [Re.rest] in E1. rewrite E1, E2, E3, E4, E5 in Hno.
  rewrite !all_chars_app in Hno. cbn [all_chars] in Hno. rewrite Hc in Hno.
  cbn [negb andb] in Hno. rewrite !andb_false_r in Hno. discriminate.
Qed.

(** X10.  The field rewriter returns a line without a comma unchanged: its
    pattern ends at a comma, so a field line still ending in a semicolon is
    not rewritten. *)
Theorem edit_field_line_needs_comma (line : string) :
  all_chars (fun c => negb (Ascii.eqb "," c)) line = true ->
  edit_field_line line = line.
Proof.
  intros H. unfold edit_field_line, Re.search.
  rewrite (search_from_none RE.FIELD _ field_needs_comma); [reflexivity|].
  assumption.
Qed.

Lemma edit_field_line_needs_comma_witness :
  edit_field_line "  name?: string;" = "  name?: string;".
Proof.
  apply (@edit_field_line_needs_comma "  name?: string;"). reflexivity.
Defined.

(** ** The replacement table *)

Lemma sub_no_match (r : Re.regex) (repl : Re.rmatch -> string) (s : string) :
  forall n,
    (forall m pre post, s = pre ++ post -> Re.try_at r false m post = None) ->
    Re.sub_loop r repl n s 0 = s.
Proof.
  induction s as [|c s IH]; intros n H; cbn [Re.sub_loop];
    rewrite (H n EmptyString _ eq_refl); [reflexivity|].
  f_equal. apply IH. intros m pre post E.
  apply (H m (String c pre) post). cbn [append]. congruence.
Qed.

Lemma contains_suffix (w pre post : string) :
  contains w post -> contains w (pre ++ post).
Proof.
  intros [a [b ->]]. exists (pre ++ a), b. rewrite str_app_assoc. reflexivity.
Qed.

Lemma sub_str_absent (w : string) (repl : Re.rmatch -> string) (s : string) :
  ~ contains w s -> Re.sub (Re.Str w) repl s = s.
Proof.
  intros H. apply sub_no_match. intros m pre post ->.
  destruct (Re.try_at (Re.Str w) false m post) eqn:E; [|reflexivity].
  exfalso. apply H. apply contains_suffix.
  assert (Hs : is_some (Re.try_at (Re.Str w) false m post) = true)
    by (rewrite E; reflexivity).
  apply try_at_str in Hs as [s' ->]. exists EmptyString, s'. reflexivity.
Qed.

Lemma sub_doc_marker_absent (repl : Re.rmatch -> string) (s : string) :
  ~ contains "* " s ->
  Re.sub (cat [Re.Star Re.space; Re.Str "* "]) repl s = s.
Proof.
  intros H. apply sub_no_match. intros m pre post ->.
  unfold Re.try_at. cbn [cat].
  match goal with |- ?X = None => destruct X as [x|] eqn:E end; [|reflexivity].
  exfalso. apply H. apply contains_suffix.
  apply run_cat_reaches in E as [st1 [p1 [E E1]]].
  cbn [Re.run] in E.
  destruct (Re.strip_prefix "* " (Re.rest st1)) as [s'|] eqn:Es; [|discriminate].
  apply strip_prefix_spec in Es. cbn [Re.rest] in E1.
  exists p1, s'. rewrite E1, Es. reflexivity.
Qed.

Lemma sub_interface_absent (repl : Re.rmatch -> string) (s : string) :
  ~ contains "interface " s -> Re.sub RE.INTERFACE repl s = s.
Proof.
  intros H. apply sub_no_match. intros m pre post ->.
  unfold Re.try_at, RE.INTERFACE. cbn [cat Re.run Re.rest].
  destruct (Re.strip_prefix "interface " post) as [s'|] eqn:Es; [|reflexivity].
  exfalso. apply H. apply contains_suffix.
  apply strip_prefix_spec in Es. exists EmptyString, s'. exact Es.
Qed.

(** X11.  The replacement table leaves a line untouched when the line holds
    none of its trigger texts: [string], [boolean], [number], a star followed
    by a space, a semicolon, or [interface ] with its space. *)
Theorem dict_replace_untouched (line : string) :
  ~ contains "string" line ->
  ~ contains "boolean" line ->
  ~ contains "number" line ->
  ~ contains "* " line ->
  ~ contains ";" line ->
  ~ contains "interface " line ->
  dict_replace line RPL = line.
Proof.
  intros H1 H2 H3 H4 H5 H6. unfold dict_replace, RPL.
  cbn [fold_left fst snd].
  rewrite (sub_str_absent _ H1), (sub_str_absent _ H2), (sub_str_absent _ H3),
    (sub_doc_marker_absent _ H4), (sub_str_absent _ H5),
    (sub_interface_absent _ H6).
  reflexivity.
Qed.

Lemma dict_replace_untouched_witness :
  dict_replace "  pub kind: Option<AKind>," RPL = "  pub kind: Option<AKind>,".
Proof.
  apply (@dict_replace_untouched "  pub kind: Option<AKind>,");
    intros H; apply search_str in H; vm_compute in H; discriminate H.
Defined.

(** ** Recognising well-formed lines *)

Lemma star_greedy_longest (R : Type) (p : ascii -> bool)
    (k : Re.mstate -> option R) (w post : string) (g : list (string * string))
    (x : R) :
  all_chars p w = true ->
  match post with String c _ => p c = false | EmptyString => True end ->
  forall n,
    k (Re.MState (n + String.length w) post g) = Some x ->
    Re.star_greedy p k n (w ++ post) g = Some x.
Proof.
  intros Hw Hpost. induction w as [|c w IH]; intros n Hk.
  - cbn [append String.length] in *. rewrite Nat.add_0_r in Hk.
    destruct post as [|d post]; cbn [Re.star_greedy]; [assumption|].
    rewrite Hpost. assumption.
  - cbn [all_chars] in Hw. apply andb_true_iff in Hw as [Hc Hw].
    cbn [append Re.star_greedy]. rewrite Hc.
    rewrite (IH Hw (S n)); [reflexivity|].
    cbn [String.length] in Hk. rewrite <- plus_n_Sm in Hk. exact Hk.
Qed.

Lemma strip_prefix_here (w s : string) : Re.strip_prefix w (w ++ s) = Some s.
Proof. apply strip_prefix_spec. reflexivity. Qed.

Lemma run_str (R : Type) (w s : string) (n : nat) (g : list (string * string))
    (k : Re.mstate -> option R) :
  Re.run (Re.Str w) (Re.MState n (w ++ s) g) k =
  k (Re.MState (n + String.length w) s g).
Proof. cbn [Re.run Re.rest]. rewrite strip_prefix_here. reflexivity. Qed.

(** A group around a greedy run of a class takes the whole token when the
    rest of the pattern goes through after it. *)
Lemma run_group_token (R : Type) (name : string) (p : ascii -> bool)
    (t post : string) (n : nat) (g : list (string * string))
    (k : Re.mstate -> option R) (x : R) :
  t <> EmptyString -> all_chars p t = true ->
  match post with String c _ => p c = false | EmptyString => True end ->
  k (Re.MState (n + String.length t) post ((name, t) :: g)) = Some x ->
  Re.run (Re.Grp name (Re.Plus p)) (Re.MState n (t ++ post) g) k = Some x.
Proof.
  intros Hne Ht Hpost Hk. destruct t as [|c t]; [congruence|].
  cbn [all_chars] in Ht. apply andb_true_iff in Ht as [Hc Ht].
  cbn [Re.run Re.rest Re.pos Re.groups append]. rewrite Hc.
  apply star_greedy_longest; [assumption..|].
  cbn [Re.pos Re.rest Re.groups].
  replace (S n + String.length t - n) with (String.length (String c t))
    by (cbn [String.length]; lia).
  change (String c (t ++ post)) with (String c t ++ post).
  rewrite substring_prefix.
  cbn [String.length] in Hk. rewrite <- plus_n_Sm in Hk. exact Hk.
Qed.

Lemma field_non_word_start (n : nat) (c : ascii) (s : string) :
  Re.word c = false -> Re.try_at RE.FIELD false n (String c s) = None.
Proof.
  intros Hc. unfold Re.try_at, RE.FIELD.
  cbn [cat Re.run Re.rest]. rewrite Hc. reflexivity.
Qed.

Lemma run_cat (R : Type) (r1 r2 : Re.regex) (st : Re.mstate)
    (k : Re.mstate -> option R) :
  Re.run (Re.Cat r1 r2) st k = Re.run r1 st (fun st1 => Re.run r2 st1 k).
Proof. reflexivity. Qed.

Lemma run_opt_taken (R : Type) (r : Re.regex) (st : Re.mstate)
    (k : Re.mstate -> option R) (x : R) :
  Re.run r st k = Some x -> Re.run (Re.Opt r) st k = Some x.
Proof. intros H. cbn [Re.run]. rewrite H. reflexivity. Qed.

Lemma run_opt_skipped (R : Type) (r : Re.regex) (st : Re.mstate)
    (k : Re.mstate -> option R) :
  Re.run r st k = None -> Re.run (Re.Opt r) st k = k st.
Proof. intros H. cbn [Re.run]. rewrite H. reflexivity. Qed.

Lemma run_group_str (R : Type) (name w s : string) (n : nat)
    (g : list (string * string)) (k : Re.mstate -> option R) :
  Re.run (Re.Grp name (Re.Str w)) (Re.MState n (w ++ s) g) k =
  k (Re.MState (n + String.length w) s ((name, w) :: g)).
Proof.
  cbn [Re.run Re.rest Re.pos Re.groups Re.advance].
  rewrite strip_prefix_here.
  replace (n + String.length w - n) with (String.length w) by lia.
  rewrite substring_prefix. reflexivity.
Qed.

Lemma run_group_chr (R : Type) (name : string) (c : ascii) (s : string)
    (n : nat) (g : list (string * string)) (k : Re.mstate -> option R) :
  Re.run (Re.Grp name (Re.chr c)) (Re.MState n (String c EmptyString ++ s) g) k =
  k (Re.MState (n + 1) s ((name, String c EmptyString) :: g)).
Proof.
  cbn [Re.run Re.chr Re.rest Re.pos Re.groups Re.advance append].
  rewrite Ascii.eqb_refl.
  replace (n + 1 - n) with 1 by lia.
  change (substring 0 1 (String c s))
    with (substring 0 (String.length (String c EmptyString))
            (String c EmptyString ++ s)).
  rewrite substring_prefix. reflexivity.
Qed.

Lemma run_chr (R : Type) (c : ascii) (s : string)
    (n : nat) (g : list (string * string)) (k : Re.mstate -> option R) :
  Re.run (Re.chr c) (Re.MState n (String c EmptyString ++ s) g) k =
  k (Re.MState (n + 1) s g).
Proof.
  cbn [Re.run Re.chr Re.rest Re.pos Re.groups Re.advance append].
  rewrite Ascii.eqb_refl. reflexivity.
Qed.

Lemma field_at (n : nat) (w t tail : string) (is_opt is_arr : bool) :
  is_token w -> is_token t ->
  exists e,
    Re.try_at RE.FIELD false n
      (w ++ opt_mark is_opt ++ ": " ++ t ++ arr_mark is_arr ++ "," ++ tail) =
    Some (Re.RMatch n e
            ((if is_arr then [("arr", "[]")] else []) ++
             ("type", t) ::
             (if is_opt then [("opt", "?")] else []) ++ [("var", w)])%list).
Proof.
  intros [Hw1 Hw2] [Ht1 Ht2].
  destruct is_opt, is_arr; unfold opt_mark, arr_mark; eexists;
    unfold Re.try_at, RE.FIELD; cbn [cat]; rewrite run_cat;
    (apply run_group_token; [assumption | assumption | reflexivity |]);
    cbv beta; rewrite run_cat;
    first [ apply run_opt_taken; rewrite (run_group_chr "opt" "?")
          | rewrite run_opt_skipped by reflexivity;
            change (EmptyString ++ ?x) with x ];
    cbv beta; rewrite run_cat, (run_str ": "); rewrite run_cat;
    (apply run_group_token; [assumption | assumption | reflexivity |]);
    cbv beta; rewrite run_cat;
    first [ apply run_opt_taken; rewrite (run_group_str "arr" "[]")
          | rewrite run_opt_skipped by reflexivity;
            change (EmptyString ++ ?x) with x ];
    cbv beta; rewrite (run_chr ","); reflexivity.
Qed.

Lemma search_field (indent w t tail : string) (is_opt is_arr : bool) :
  all_chars (fun c => negb (Re.word c)) indent = true ->
  is_token w -> is_token t ->
  forall n,
  exists s e,
    Re.search_from RE.FIELD n
      (indent ++ w ++ opt_mark is_opt ++ ": " ++ t ++ arr_mark is_arr ++
       "," ++ tail) =
    Some (Re.RMatch s e
            ((if is_arr then [("arr", "[]")] else []) ++
             ("type", t) ::
             (if is_opt then [("opt", "?")] else []) ++ [("var", w)])%list).
Proof.
  intros Hi Hw Ht.
  induction indent as [|c indent IH]; intros n; cbn [append].
  - destruct (@field_at n w t tail is_opt is_arr Hw Ht) as [e He].
    exists n, e. destruct w as [|c w]; [destruct Hw; congruence|].
    cbn [append Re.search_from] in *. rewrite He. reflexivity.
  - cbn [all_chars] in Hi. apply andb_true_iff in Hi as [Hc Hi].
    apply negb_true_iff in Hc.
    cbn [Re.search_from]. rewrite (@field_non_word_start n c _ Hc).
    apply IH. assumption.
Qed.

(** X12.  On a line of ASCII text that holds a well-formed field
    declaration [name[?]: Type[[]],] behind indentation without word
    characters, the field rewriter prints a public field whose name is the
    snake-case form of the declared name and whose type is array-wrapped
    first and optional-wrapped around it; the indentation and whatever
    follows the comma are dropped. *)
Theorem edit_field_line_field (indent w t tail : string)
    (is_opt is_arr : bool) :
  ascii_text indent -> ascii_text tail ->
  all_chars (fun c => negb (Re.word c)) indent = true ->
  is_token w -> is_token t ->
  edit_field_line
    (indent ++ w ++ opt_mark is_opt ++ ": " ++ t ++ arr_mark is_arr ++
     "," ++ tail) =
  "  pub " ++ this_is_snek w ++ ": " ++ wrap_type is_opt is_arr t ++ ",".
Proof.
  intros _ _ Hi Hw Ht. unfold edit_field_line, Re.search.
  destruct (@search_field indent w t tail is_opt is_arr Hi Hw Ht 0)
    as [s [e ->]].
  destruct is_opt, is_arr; reflexivity.
Qed.

Lemma edit_field_line_field_witness :
  edit_field_line "    someFieldName?: i64[], // note" =
  "  pub some_field_name: Option<Vec<i64>>,".
Proof.
  refine (@edit_field_line_field "    " "someFieldName" "i64" " // note"
            true true _ _ _ _ _).
  - reflexivity.
  - reflexivity.
  - reflexivity.
  - split; [discriminate | reflexivity].
  - split; [discriminate | reflexivity].
Defined.

Lemma word_not_isspace (c : ascii) : Re.word c = true -> Re.space c = false.
Proof.
  destruct c as [[] [] [] [] [] [] [] []]; intros H;
    first [reflexivity | discriminate H].
Qed.

Lemma variants_chars_dot (c : ascii) :
  RE.variants_chars c = true -> Re.dot c = true.
Proof.
  destruct c as [[] [] [] [] [] [] [] []]; intros H;
    first [reflexivity | discriminate H].
Qed.

Lemma has_char_split (c : ascii) (s : string) :
  has_char (Ascii.eqb c) s = true ->
  exists pre post, s = pre ++ String c post.
Proof.
  induction s as [|d s IH]; cbn [has_char]; [discriminate|].
  destruct (Ascii.eqb_spec c d) as [<-|Hne]; cbn [orb].
  - intros _. exists EmptyString, s. reflexivity.
  - intros H. destruct (IH H) as [pre [post ->]].
    exists (String d pre), post. reflexivity.
Qed.

(** A look-ahead succeeds as soon as some way through the repetition does. *)
Lemma star_greedy_ahead (p : ascii -> bool) (k : Re.mstate -> option unit)
    (pre post : string) (g : list (string * string)) :
  all_chars p pre = true ->
  forall n,
    k (Re.MState (n + String.length pre) post g) = Some tt ->
    Re.star_greedy p k n (pre ++ post) g = Some tt.
Proof.
  intros Hp. induction pre as [|c pre IH]; intros n Hk.
  - cbn [append String.length] in *. rewrite Nat.add_0_r in Hk.
    destruct post as [|d post]; cbn [Re.star_greedy]; [assumption|].
    destruct (p d); [|assumption].
    destruct (Re.star_greedy p k (S n) post g) as [[]|]; [reflexivity | assumption].
  - cbn [all_chars] in Hp. apply andb_true_iff in Hp as [Hc Hp].
    cbn [append Re.star_greedy]. rewrite Hc.
    rewrite (IH Hp (S n)); [reflexivity|].
    cbn [String.length] in Hk. rewrite <- plus_n_Sm in Hk. exact Hk.
Qed.

Lemma run_star (R : Type) (p : ascii -> bool) (n : nat) (s : string)
    (g : list (string * string)) (k : Re.mstate -> option R) :
  Re.run (Re.Star p) (Re.MState n s g) k = Re.star_greedy p k n s g.
Proof. reflexivity. Qed.

Lemma run_ahead (R : Type) (r : Re.regex) (st : Re.mstate)
    (k : Re.mstate -> option R) :
  Re.run r st (fun _ => Some tt) = Some tt ->
  Re.run (Re.Ahead r) st k = k st.
Proof. intros H. cbn [Re.run]. rewrite H. reflexivity. Qed.

Lemma enum_at (indent w expr tail : string) (is_opt : bool) :
  all_chars Re.space indent = true ->
  is_token w ->
  expr <> EmptyString ->
  all_chars RE.variants_chars expr = true ->
  has_char (Ascii.eqb "|") expr = true ->
  exists e,
    Re.rmatch_at_start RE.ENUM
      (indent ++ w ++ opt_mark is_opt ++ ": " ++ expr ++ ";" ++ tail) =
    Some (Re.RMatch 0 e
            (("variants", expr) ::
             (if is_opt then [("opt", "?")] else []) ++ [("var", w)])%list).
Proof.
  intros Hi [Hw1 Hw2] He1 He2 He3.
  assert (Hahead : forall n g (k : Re.mstate -> option unit),
            k = (fun _ => Some tt) ->
            Re.run (cat [Re.Star Re.dot; Re.chr "|"])
              (Re.MState n (expr ++ ";" ++ tail) g) k = Some tt).
  { intros n g k ->. cbn [cat]. rewrite run_cat, run_star.
    destruct (has_char_split _ _ He3) as [pre [post E]].
    rewrite E, str_app_assoc.
    apply star_greedy_ahead.
    - rewrite E, all_chars_app in He2. apply andb_true_iff in He2 as [He2 _].
      eapply all_chars_impl; [|exact He2]. apply variants_chars_dot.
    - cbv beta. cbn [Re.run Re.chr Re.rest append]. rewrite Ascii.eqb_refl.
      reflexivity. }
  destruct is_opt; unfold opt_mark; eexists;
    unfold Re.rmatch_at_start, Re.try_at, RE.ENUM; cbn [cat];
    rewrite run_cat, run_star;
    (apply star_greedy_longest;
       [assumption
       | destruct w as [|c w]; [congruence|]; cbn [all_chars append] in *;
         apply andb_true_iff in Hw2 as [Hc _]; apply word_not_isspace, Hc
       |]);
    cbv beta; rewrite Nat.add_0_l, run_cat;
    (apply run_group_token; [assumption | assumption | reflexivity |]);
    cbv beta; rewrite run_cat;
    first [ apply run_opt_taken; rewrite (run_group_chr "opt" "?")
          | rewrite run_opt_skipped by reflexivity;
            change (EmptyString ++ ?x) with x ];
    cbv beta; rewrite run_cat, (run_str ": "); rewrite run_cat;
    rewrite run_ahead by (apply Hahead; reflexivity);
    cbv beta; rewrite run_cat;
    (apply run_group_token; [assumption | assumption | reflexivity |]);
    cbv beta; rewrite (run_chr ";"); reflexivity.
Qed.

Lemma space_not_i (c : ascii) : Re.space c = true -> Ascii.eqb "i" c = false.
Proof.
  intros H. destruct (Ascii.eqb_spec "i" c) as [<-|]; [discriminate H | reflexivity].
Qed.

Lemma field_not_interface (indent w rest : string) (is_opt : bool) :
  all_chars Re.space indent = true ->
  is_token w ->
  Re.rmatch_at_start RE.INTERFACE (indent ++ w ++ opt_mark is_opt ++ ": " ++ rest)
  = None.
Proof.
  intros Hi [Hw1 Hw2].
  unfold Re.rmatch_at_start, Re.try_at, RE.INTERFACE. cbn [cat]. rewrite run_cat.
  cbn [Re.run Re.rest].
  destruct (Re.strip_prefix "interface " _) as [s'|] eqn:E; [|reflexivity].
  exfalso. apply strip_prefix_spec in E.
  destruct indent as [|c indent].
  - change (EmptyString ++ ?x) with x in E.
    assert (Hw : take_while Re.word (w ++ opt_mark is_opt ++ ": " ++ rest) = w).
    { apply take_while_stop; [assumption|]. destruct is_opt; reflexivity. }
    rewrite E in Hw.
    change ("interface " ++ s') with ("interface" ++ String " " s') in Hw.
    rewrite take_while_stop in Hw by reflexivity. subst w.
    destruct is_opt; cbn [opt_mark append] in E; discriminate E.
  - cbn [all_chars append] in *. apply andb_true_iff in Hi as [Hc _].
    inversion E; subst c. discriminate Hc.
Qed.

Lemma union_field_kind (indent w expr tail : string) (is_opt : bool) :
  all_chars Re.space indent = true ->
  is_token w ->
  expr <> EmptyString ->
  all_chars RE.variants_chars expr = true ->
  has_char (Ascii.eqb "|") expr = true ->
  classify (indent ++ w ++ opt_mark is_opt ++ ": " ++ expr ++ ";" ++ tail)
  = UnionField w is_opt expr.
Proof.
  intros Hi Hw He1 He2 He3. unfold classify.
  rewrite field_not_interface by assumption.
  destruct (@enum_at indent w expr tail is_opt Hi Hw He1 He2 He3) as [e ->].
  destruct is_opt; reflexivity.
Qed.

(** X13.  A line [name[?]: 'a' | 'b' ...;] is recognised as a union-typed
    field: with whitespace before the name, a word as name, and a non-empty
    union written with quotes, word characters, spaces and at least one bar,
    the extractor reads the name, the optional marker and the whole union
    expression, and drops what follows the semicolon. *)
Theorem classify_union_field (indent w expr tail : string) (is_opt : bool) :
  all_chars Re.space indent = true ->
  is_token w ->
  expr <> EmptyString ->
  all_chars RE.variants_chars expr = true ->
  has_char (Ascii.eqb "|") expr = true ->
  classify (indent ++ w ++ opt_mark is_opt ++ ": " ++ expr ++ ";" ++ tail)
  = UnionField w is_opt expr.
Proof.
  intros Hi Hw He1 He2 He3. unfold classify.
  rewrite field_not_interface by assumption.
  destruct (@enum_at indent w expr tail is_opt Hi Hw He1 He2 He3) as [e ->].
  destruct is_opt; reflexivity.
Qed.

Lemma classify_union_field_witness :
  classify "  kind?: 'a' | 'b'; // which" = UnionField "kind" true "'a' | 'b'".
Proof.
  refine (@classify_union_field "  " "kind" "'a' | 'b'" " // which" true
            _ _ _ _ _).
  - reflexivity.
  - split; [discriminate | reflexivity].
  - discriminate.
  - reflexivity.
  - reflexivity.
Defined.

Lemma star_lazy_succeeds (R : Type) (p : ascii -> bool)
    (k : Re.mstate -> option R) (pre post : string)
    (g : list (string * string)) :
  all_chars p pre = true ->
  forall n,
    k (Re.MState (n + String.length pre) post g) <> None ->
    Re.star_lazy p k n (pre ++ post) g <> None.
Proof.
  intros Hp. induction pre as [|c pre IH]; intros n Hk.
  - cbn [append String.length] in *. rewrite Nat.add_0_r in Hk.
    destruct post as [|d post]; cbn [Re.star_lazy];
      destruct (k _) eqn:E; congruence.
  - cbn [all_chars] in Hp. apply andb_true_iff in Hp as [Hc Hp].
    cbn [append Re.star_lazy].
    destruct (k (Re.MState n (String c (pre ++ post)) g)) eqn:E; [congruence|].
    rewrite Hc. apply IH; [assumption|].
    cbn [String.length] in Hk. rewrite <- plus_n_Sm in Hk. exact Hk.
Qed.

(** The optional lazy group of the interface pattern adds at most its own
    group. *)
Lemma opt_lazy_group_groups (R : Type) (name : string) (p : ascii -> bool)
    (st : Re.mstate) (k : Re.mstate -> option R) (x : R) :
  Re.run (Re.Opt (Re.Grp name (Re.PlusLazy p))) st k = Some x ->
  exists st',
    k st' = Some x /\
    (Re.groups st' = Re.groups st \/
     exists v, Re.groups st' = (name, v) :: Re.groups st).
Proof.
  intros H. cbn [Re.run] in H.
  destruct (Re.rest st) as [|c s'] eqn:Er.
  - exists st. auto.
  - destruct (p c).
    + destruct (Re.star_lazy _ _ _ _ _) as [y|] eqn:E.
      * inversion H; subst y.
        apply star_lazy_reaches in E as [pre [post [_ [_ Hk]]]].
        eexists. split; [exact Hk|]. right. cbn [Re.groups]. eauto.
      * exists st. auto.
    + exists st. auto.
Qed.

Lemma interface_at (name mid : string) :
  is_token name ->
  all_chars Re.dot mid = true ->
  match mid with String c _ => Re.word c = false | EmptyString => True end ->
  exists m,
    Re.rmatch_at_start RE.INTERFACE ("interface " ++ name ++ mid ++ " {") = Some m /\
    Re.group_str "name" m = name.
Proof.
  intros [Hn1 Hn2] Hdot Hmid.
  unfold Re.rmatch_at_start, Re.try_at, RE.INTERFACE. cbn [cat].
  rewrite run_cat, (run_str "interface "), run_cat.
  set (k2 := fun st1 : Re.mstate => Re.run _ st1 _).
  set (st1 := Re.MState (0 + String.length "interface " + String.length name)
                (mid ++ " {") [("name", name)]).
  assert (Hsome : k2 st1 <> None).
  { unfold k2, st1. rewrite run_cat. cbn [Re.run Re.rest Re.pos Re.groups].
    destruct mid as [|c mid].
    - cbn. discriminate.
    - cbn [append all_chars] in *. apply andb_true_iff in Hdot as [Hc Hdot].
      rewrite Hc.
      match goal with
      | |- match ?X with _ => _ end <> None =>
          assert (Hx : X <> None); [|destruct X; [discriminate | congruence]]
      end.
      apply star_lazy_succeeds; [assumption|].
      cbv beta. cbn [Re.run Re.rest Re.pos Re.groups Re.advance].
      change (Re.strip_prefix " {" " {") with (Some EmptyString).
      discriminate. }
  destruct (k2 st1) as [m|] eqn:E; [|congruence].
  exists m. split.
  - apply run_group_token; [assumption | assumption | | exact E].
    destruct mid; [reflexivity | assumption].
  - unfold k2 in E. rewrite run_cat in E.
    apply opt_lazy_group_groups in E as [st' [E Hg]].
    cbn [Re.run] in E.
    destruct (Re.strip_prefix " {" (Re.rest st')); [|discriminate].
    cbn [andb Re.advance Re.groups] in E. inversion E; subst m.
    unfold Re.group_str, Re.group. cbn [Re.m_groups].
    destruct Hg as [->|[v ->]]; reflexivity.
Qed.

Lemma interface_kind (name mid : string) :
  is_token name ->
  all_chars Re.dot mid = true ->
  match mid with String c _ => Re.word c = false | EmptyString => True end ->
  classify ("interface " ++ name ++ mid ++ " {") = Interface name.
Proof.
  intros Hn Hdot Hmid. unfold classify.
  destruct (@interface_at name mid Hn Hdot Hmid) as [m [-> Hm]].
  rewrite Hm. reflexivity.
Qed.

(** X14.  A line [interface Name ... {] of ASCII text (the name a word, then
    nothing or text that starts with a non-word character, then a space and
    the brace) is recognised as the opening of the interface [Name],
    whatever stands between the name and the brace. *)
Theorem classify_interface (name mid : string) :
  ascii_text mid ->
  is_token name ->
  all_chars Re.dot mid = true ->
  match mid with String c _ => Re.word c = false | EmptyString => True end ->
  classify ("interface " ++ name ++ mid ++ " {") = Interface name.
Proof. intros _. apply interface_kind. Qed.

Lemma classify_interface_witness :
  classify "interface StoppedEvent extends Event {" = Interface "StoppedEvent".
Proof.
  refine (@classify_interface "StoppedEvent" " extends Event" _ _ _ _).
  - reflexivity.
  - split; [discriminate | reflexivity].
  - reflexivity.
  - reflexivity.
Defined.

(** ** The generated declaration, arm by arm *)

Lemma mapM_map (A B : Type) (f : A -> result B) (g : A -> B) (l : list A) :
  (forall x, In x l -> f x = Ok (g x)) -> mapM f l = Ok (map g l).
Proof.
  induction l as [|x t IH]; intros H; cbn [mapM map]; [reflexivity|].
  rewrite (H x (or_introl eq_refl)), IH; [reflexivity|].
  intros y Hy. apply H. right; assumption.
Qed.

(** X15.  The generated enum has one variant and one arm in each [match]
    per token of the union, in the order of the union: a closed token gives
    the variant named by upper-casing its first character, with an arm from
    the token to the variant and an arm back; the token [string] gives the
    carrying variant and the two catch-all arms; a union without it gets the
    failing arm at the end of the parse routine. *)
Theorem generated_declaration (line enum_name : string) (strings : list string) :
  get_strings line = Ok strings ->
  variants_of strings =
    Ok (map (fun s => if String.eqb s "string" then Carry
                      else Unit (cap_first s)) strings) /\
  match_arms_of strings enum_name =
    Ok (map (fun s => if String.eqb s "string" then Other
                      else Lit s (cap_first s)) strings ++
        (if str_in "string" strings then [] else [Fail enum_name]))%list /\
  enum2str_arms_of strings =
    Ok (map (fun s => if String.eqb s "string" then Unwrap
                      else Back (cap_first s) s) strings).
Proof.
  intros Hs. pose proof (get_strings_tokens _ Hs) as Htok.
  rewrite Forall_forall in Htok.
  assert (Hv : forall x, In x strings -> str_to_variant x = Ok (cap_first x)).
  { intros x Hin. destruct (Htok _ Hin). apply str_to_variant_token; assumption. }
  unfold variants_of, match_arms_of, enum2str_arms_of.
  split; [|split].
  - apply mapM_map. intros x Hin. rewrite (Hv _ Hin).
    destruct (String.eqb x "string"); reflexivity.
  - rewrite (mapM_map _ (fun s => if String.eqb s "string" then Other
                                  else Lit s (cap_first s))).
    + cbn [bind]. destruct (str_in "string" strings); reflexivity.
    + intros x Hin. rewrite (Hv _ Hin).
      destruct (String.eqb x "string"); reflexivity.
  - apply mapM_map. intros x Hin. rewrite (Hv _ Hin).
    destruct (String.eqb x "string"); reflexivity.
Qed.

Lemma generated_declaration_witness :
  variants_of ["normal"; "string"] = Ok [Unit "Normal"; Carry] /\
  match_arms_of ["normal"; "string"] "Hint" = Ok [Lit "normal" "Normal"; Other] /\
  enum2str_arms_of ["normal"; "string"] = Ok [Back "Normal" "normal"; Unwrap].
Proof.
  apply (@generated_declaration "'normal' | string" "Hint"). reflexivity.
Defined.

(** ** The extractor on a well-formed interface *)

Section WellFormed.

#[local] Open Scope list_scope.

Lemma plain_lines (others : list string) (sn : option string) :
  Forall (fun l => classify l = Plain) others ->
  discovered sn others = [] /\
  enclosing sn others = sn /\
  rewritten sn others = others.
Proof.
  induction 1 as [|l others Hl _ [IH1 [IH2 IH3]]];
    cbn [discovered enclosing rewritten]; [auto|].
  rewrite Hl, IH1, IH2, IH3. auto.
Qed.

(** X16.  End to end for the extractor, on ASCII text: in a file made of
    the opening line of interface [Name], lines that are neither openings
    nor union-typed fields, and a union-typed field [field[?]: union;], the
    extractor generates exactly one enum, named [Name] followed by the
    capitalized field name, from the union expression, and replaces the field
    line by a reference to it, optional when the field is; the other lines
    stay. *)
Theorem extract_union_field (name mid indent w expr tail : string)
    (is_opt : bool) (others : list string) :
  ascii_text mid -> ascii_text tail ->
  ascii_lines others ->
  is_token name ->
  all_chars Re.dot mid = true ->
  match mid with String c _ => Re.word c = false | EmptyString => True end ->
  Forall (fun l => classify l = Plain) others ->
  all_chars Re.space indent = true ->
  is_token w ->
  all_chars RE.variants_chars expr = true ->
  has_char (Ascii.eqb "|") expr = true ->
  wf_union expr = true ->
  let opening := ("interface " ++ name ++ mid ++ " {")%string in
  let field :=
    (indent ++ w ++ opt_mark is_opt ++ ": " ++ expr ++ ";" ++ tail)%string in
  let typename := (name ++ capitalize w)%string in
  exists def,
    gen_enum_def typename expr = Ok def /\
    rewrite_enums (opening :: others ++ [field]) =
    Ok ([(typename, def)],
        opening :: others ++ [field_ref w is_opt typename]).
Proof.
  intros _ _ _ Hn Hdot Hmid Hplain Hi Hw He2 He3 Hwf opening field typename.
  assert (He1 : expr <> EmptyString) by (intros ->; discriminate He3).
  destruct (@gen_enum_def_total typename expr Hwf) as [def Hdef].
  exists def. split; [assumption|].
  rewrite rewrite_enums_spec.
  cbn [discovered rewritten]. unfold opening.
  rewrite (@interface_kind name mid Hn Hdot Hmid).
  rewrite discovered_app, rewritten_app.
  destruct (@plain_lines others (Some name) Hplain) as [-> [-> ->]].
  cbn [discovered rewritten app]. unfold field.
  rewrite (@union_field_kind indent w expr tail is_opt Hi Hw He1 He2 He3).
  cbn [mapM]. unfold generate, enum_name_of. cbn [fst snd fmt_opt].
  fold typename. rewrite Hdef. reflexivity.
Qed.

Lemma extract_union_field_witness :
  exists def,
    gen_enum_def "SourcePresentationhint" "'normal' | 'emphasize' | string"
      = Ok def /\
    rewrite_enums
      ["interface Source extends Base {"; "  name?: string;";
       "  presentationHint?: 'normal' | 'emphasize' | string;"] =
    Ok ([("SourcePresentationhint", def)],
        ["interface Source extends Base {"; "  name?: string;";
         "  pub presentationHint: Option<SourcePresentationhint>;"]).
Proof.
  refine (@extract_union_field "Source" " extends Base" "  "
            "presentationHint" "'normal' | 'emphasize' | string" EmptyString
            true ["  name?: string;"] _ _ _ _ _ _ _ _ _ _ _ _).
  - reflexivity.
  - reflexivity.
  - repeat constructor.
  - split; [discriminate | reflexivity].
  - reflexivity.
  - reflexivity.
  - repeat constructor.
  - reflexivity.
  - split; [discriminate | reflexivity].
  - reflexivity.
  - reflexivity.
  - reflexivity.
Defined.

End WellFormed.
